(** * tcz-proxy: the routing and forwarding engine

    A shallow embedding of [main.go].  The repository carries three
    generations of the program, each with its own [Proxy], [NewProxy] and
    [ServeHTTP]:

    - the mapping proxy (regex path mappings and a default host),
      embedded in [Module MappingProxy];
    - the mirror proxy (404 failover over a list of mirrors), embedded in
      [Module MirrorProxy];
    - the plain proxy, which forwards a request to its own URL,
      embedded in [Module PlainProxy].

    The program is a thin layer over three Go packages: [regexp],
    [net/url] and [net/http].  The proxies are written against the
    classes [RegexpLib], [UrlLib] and [Transport], so that what is proved
    about routing, failover and header copying holds for every behaviour
    of those packages.  Where a property depends on what the packages
    compute (which text a pattern matches, how a template expands, how a
    URL prints) the development uses [Module regexp] and [Module url]:
    executable models of the fragment of the packages that the
    configuration files and the tests of the repository exercise.  Each
    model says where it stands for the package, and the theorems that
    rest on a model carry that range as hypotheses: ASCII text
    ([ascii_text]) and patterns whose repetitions advance
    ([regexp.supported]) for [regexp], URLs that [url.Parse] of the model
    accepts for [net/url].  The tests of the repository are replayed on
    these models at the end of the file.

    Logging ([log.Printf]) is left out throughout. *)

From Stdlib Require Import Strings.String Strings.Ascii.
From stdpp Require Import gmap strings list.

(** ** Go values *)

(** [error] values are modelled by their message. *)
Definition error := string.

(** A Go result pair [(T, error)]. *)
Inductive result (A : Type) : Type :=
| Ok (a : A)
| Err (e : error).
Arguments Ok {A} a.
Arguments Err {A} e.

Definition is_Ok {A} (r : result A) : bool :=
  match r with Ok _ => true | Err _ => false end.

(** Go strings are byte sequences; the models below read them as lists of
    one-byte characters (ASCII text, in which a rune is a byte). *)
Definition bytes (s : string) : list ascii := list_ascii_of_string s.
Definition str (l : list ascii) : string := string_of_list_ascii l.

(** [s[i:j]] *)
Definition slice (s : list ascii) (i j : nat) : list ascii :=
  take (j - i) (drop i s).

Definition is_digit (c : ascii) : bool := ("0" <=? c)%char && (c <=? "9")%char.
Definition is_lower (c : ascii) : bool := ("a" <=? c)%char && (c <=? "z")%char.
Definition is_upper (c : ascii) : bool := ("A" <=? c)%char && (c <=? "Z")%char.
Definition is_alnum (c : ascii) : bool := is_digit c || is_lower c || is_upper c.
Definition is_ascii (c : ascii) : bool := (c <? "128")%char.

(** Text in which every rune is one byte.  [regexp] reads its input rune
    by rune; the model of the matcher reads it byte by byte, and stands
    for [regexp] on such text only. *)
Definition ascii_text (s : list ascii) : bool := forallb is_ascii s.

(** [strings.Contains(s, sub)] *)
Fixpoint has_prefix (p s : list ascii) : bool :=
  match p, s with
  | [], _ => true
  | a :: p', b :: s' => (a =? b)%char && has_prefix p' s'
  | _ :: _, [] => false
  end.

Fixpoint contains_at (sub s : list ascii) : bool :=
  has_prefix sub s || match s with [] => false | _ :: s' => contains_at sub s' end.

Definition Contains (s sub : string) : bool := contains_at (bytes sub) (bytes s).

(** ** Package [regexp/syntax]: patterns

    The fragment: literal characters; escaped punctuation and the control
    escapes; [.]; bracket classes with ranges, negation and [\d \w \s];
    the Perl classes [\d \D \w \W \s \S]; capturing groups and [(?:...)];
    alternation; [*], [+], [?] and their non-greedy forms; [^] and [$].
    Patterns are ASCII.  What Go accepts beyond that (counted repetition,
    flags and named groups, [\b \A \z], octal and hex escapes, POSIX and
    Unicode classes) the model answers with an error that starts with
    [unsupported]; the errors without that mark are errors of Go as
    well. *)

Module syntax.

(** The operators of [syntax.Regexp] that the fragment uses. *)
Inductive Regexp : Type :=
| EmptyMatch
| Literal (c : ascii)
| CharClass (neg : bool) (ranges : list (ascii * ascii))
| AnyCharNotNL
| BeginText
| EndText
| Capture (n : nat) (r : Regexp)
| Star (greedy : bool) (r : Regexp)
| Plus (greedy : bool) (r : Regexp)
| Quest (greedy : bool) (r : Regexp)
| Concat (r1 r2 : Regexp)
| Alternate (r1 r2 : Regexp).

(** Perl classes [\d], [\w], [\s]. *)
Definition perl_d : list (ascii * ascii) := [("0", "9")]%char.
Definition perl_w : list (ascii * ascii) :=
  [("0", "9"); ("A", "Z"); ("_", "_"); ("a", "z")]%char.
Definition perl_s : list (ascii * ascii) :=
  [("009", "010"); ("012", "013"); (" ", " ")]%char.

(** Escapes that denote one character: punctuation stands for itself,
    [\a \f \n \r \t \v] for control characters. *)
Definition escape_char (c : ascii) : option ascii :=
  if is_ascii c && negb (is_alnum c) then Some c
  else if (c =? "a")%char then Some "007"%char
  else if (c =? "f")%char then Some "012"%char
  else if (c =? "n")%char then Some "010"%char
  else if (c =? "r")%char then Some "013"%char
  else if (c =? "t")%char then Some "009"%char
  else if (c =? "v")%char then Some "011"%char
  else None.

Definition escape_class (c : ascii) : option (bool * list (ascii * ascii)) :=
  if (c =? "d")%char then Some (false, perl_d)
  else if (c =? "D")%char then Some (true, perl_d)
  else if (c =? "w")%char then Some (false, perl_w)
  else if (c =? "W")%char then Some (true, perl_w)
  else if (c =? "s")%char then Some (false, perl_s)
  else if (c =? "S")%char then Some (true, perl_s)
  else None.

(** The items read between [[] and []]. *)
Inductive citem : Type :=
| CLit (c : ascii)          (* an unescaped character *)
| CEsc (c : ascii)          (* an escaped character *)
| CPerl (rs : list (ascii * ascii)).

Definition citem_char (i : citem) : option ascii :=
  match i with CLit c | CEsc c => Some c | CPerl _ => None end.

(** Turn the items of a class, in reading order, into ranges: [lo-hi] is
    a range unless the dash is the last item. *)
Fixpoint class_ranges (items : list citem) : result (list (ascii * ascii)) :=
  match items with
  | [] => Ok []
  | CPerl rs :: rest =>
    match class_ranges rest with
    | Ok more => Ok (rs ++ more)
    | Err e => Err e
    end
  | CLit "["%char :: CLit ":"%char :: _ => Err "unsupported: POSIX class"
  | lo :: CLit "-"%char :: hi :: rest =>
    match citem_char lo, citem_char hi with
    | Some l, Some h =>
      if (l <=? h)%char then
        match class_ranges rest with
        | Ok more => Ok ((l, h) :: more)
        | Err e => Err e
        end
      else Err "invalid character class range"
    | _, _ => Err "invalid escape sequence"
    end
  | lo :: rest =>
    match citem_char lo with
    | Some l =>
      match class_ranges rest with
      | Ok more => Ok ((l, l) :: more)
      | Err e => Err e
      end
    | None => Ok []
    end
  end.

(** The parser is the stack machine of [syntax.Parse]: one pass over the
    pattern, a frame per open group. *)
Record frame : Type := Frame {
  alts : list Regexp;       (* finished alternatives, last first *)
  seq : list Regexp;        (* the current concatenation, last first *)
  cap : option nat          (* the group's index; [None]: not capturing *)
}.

Inductive mode : Type :=
| Normal
| Escape
| GroupOpen
| GroupQuest
| ClassOpen
| ClassBody (neg : bool) (items : list citem)
| ClassEscape (neg : bool) (items : list citem).

(** What the previous character left behind, for [a*?] and [a**]. *)
Inductive repeat : Type :=
| NoRepeat
| JustRepeated
| RepeatClosed.

Record pstate : Type := PState {
  md : mode;
  cur : frame;
  stack : list frame;
  ncap : nat;
  rep : repeat
}.

Fixpoint concat_of (rs : list Regexp) : Regexp :=
  match rs with
  | [] => EmptyMatch
  | [r] => r
  | r :: rs' => Concat r (concat_of rs')
  end.

Fixpoint alternate_of (rs : list Regexp) : Regexp :=
  match rs with
  | [] => EmptyMatch
  | [r] => r
  | r :: rs' => Alternate r (alternate_of rs')
  end.

(** The expression a frame stands for when it is closed. *)
Definition close_frame (f : frame) : Regexp :=
  let body := alternate_of (reverse (concat_of (reverse (seq f)) :: alts f)) in
  match cap f with
  | Some n => Capture n body
  | None => body
  end.

Definition push (r : Regexp) (st : pstate) : pstate :=
  PState Normal (Frame (alts (cur st)) (r :: seq (cur st)) (cap (cur st)))
         (stack st) (ncap st) NoRepeat.

Definition set_greedy (g : bool) (r : Regexp) : Regexp :=
  match r with
  | Star _ r' => Star g r'
  | Plus _ r' => Plus g r'
  | Quest _ r' => Quest g r'
  | _ => r
  end.

(** [*], [+] and [?] after an operand; [?] right after a repetition makes
    it non-greedy; a second repetition operator is rejected. *)
Definition repetition (c : ascii) (st : pstate) : result pstate :=
  let f := cur st in
  match rep st, seq f with
  | NoRepeat, [] => Err "missing argument to repetition operator"
  | NoRepeat, r :: rs =>
    let r' := if (c =? "*")%char then Star true r
              else if (c =? "+")%char then Plus true r
              else Quest true r in
    Ok (PState Normal (Frame (alts f) (r' :: rs) (cap f))
               (stack st) (ncap st) JustRepeated)
  | JustRepeated, r :: rs =>
    if (c =? "?")%char then
      Ok (PState Normal (Frame (alts f) (set_greedy false r :: rs) (cap f))
                 (stack st) (ncap st) RepeatClosed)
    else Err "invalid nested repetition operator"
  | _, _ => Err "invalid nested repetition operator"
  end.

Definition open_group (capturing : bool) (st : pstate) : pstate :=
  if capturing then
    PState Normal (Frame [] [] (Some (S (ncap st))))
           (cur st :: stack st) (S (ncap st)) NoRepeat
  else
    PState Normal (Frame [] [] None) (cur st :: stack st) (ncap st) NoRepeat.

Definition normal_char (c : ascii) (st : pstate) : result pstate :=
  if (c =? "\")%char then
    Ok (PState Escape (cur st) (stack st) (ncap st) (rep st))
  else if (c =? "(")%char then
    Ok (PState GroupOpen (cur st) (stack st) (ncap st) (rep st))
  else if (c =? ")")%char then
    match stack st with
    | [] => Err "unexpected )"
    | parent :: below =>
      Ok (PState Normal
            (Frame (alts parent) (close_frame (cur st) :: seq parent) (cap parent))
            below (ncap st) NoRepeat)
    end
  else if (c =? "|")%char then
    let f := cur st in
    Ok (PState Normal
          (Frame (concat_of (reverse (seq f)) :: alts f) [] (cap f))
          (stack st) (ncap st) NoRepeat)
  else if (c =? "*")%char || (c =? "+")%char || (c =? "?")%char then
    repetition c st
  else if (c =? "[")%char then
    Ok (PState ClassOpen (cur st) (stack st) (ncap st) (rep st))
  else if (c =? "{")%char then Err "unsupported: counted repetition"
  else if (c =? ".")%char then Ok (push AnyCharNotNL st)
  else if (c =? "^")%char then Ok (push BeginText st)
  else if (c =? "$")%char then Ok (push EndText st)
  else if is_ascii c then Ok (push (Literal c) st)
  else Err "unsupported: non-ASCII pattern".

Definition class_char (neg : bool) (items : list citem) (c : ascii) (st : pstate)
  : result pstate :=
  if (c =? "]")%char && negb (bool_decide (items = [])) then
    match class_ranges (reverse items) with
    | Ok rs => Ok (push (CharClass neg rs) st)
    | Err e => Err e
    end
  else if (c =? "\")%char then
    Ok (PState (ClassEscape neg items) (cur st) (stack st) (ncap st) (rep st))
  else if is_ascii c then
    Ok (PState (ClassBody neg (CLit c :: items)) (cur st) (stack st) (ncap st) (rep st))
  else Err "unsupported: non-ASCII pattern".

(** One character of the pattern. *)
Definition step (st : pstate) (c : ascii) : result pstate :=
  match md st with
  | Normal => normal_char c st
  | Escape =>
    match escape_class c, escape_char c with
    | Some (neg, rs), _ => Ok (push (CharClass neg rs) st)
    | None, Some c' => Ok (push (Literal c') st)
    | None, None => Err "unsupported or invalid escape sequence"
    end
  | GroupOpen =>
    if (c =? "?")%char then
      Ok (PState GroupQuest (cur st) (stack st) (ncap st) (rep st))
    else normal_char c (open_group true st)
  | GroupQuest =>
    if (c =? ":")%char then Ok (open_group false st)
    else Err "unsupported: group flags and named groups"
  | ClassOpen =>
    if (c =? "^")%char then
      Ok (PState (ClassBody true []) (cur st) (stack st) (ncap st) (rep st))
    else class_char false [] c st
  | ClassBody neg items => class_char neg items c st
  | ClassEscape neg items =>
    match escape_class c, escape_char c with
    | Some (false, rs), _ =>
      Ok (PState (ClassBody neg (CPerl rs :: items)) (cur st) (stack st) (ncap st) (rep st))
    | Some (true, _), _ => Err "unsupported: negated Perl class in brackets"
    | None, Some c' =>
      Ok (PState (ClassBody neg (CEsc c' :: items)) (cur st) (stack st) (ncap st) (rep st))
    | None, None => Err "unsupported or invalid escape sequence"
    end
  end.

Fixpoint steps (st : pstate) (pat : list ascii) : result pstate :=
  match pat with
  | [] => Ok st
  | c :: pat' =>
    match step st c with
    | Ok st' => steps st' pat'
    | Err e => Err e
    end
  end.

(** End of the pattern: every group and class must be closed. *)
Definition finish (st : pstate) : result (Regexp * nat) :=
  match md st, stack st with
  | Normal, [] => Ok (close_frame (cur st), ncap st)
  | Normal, _ :: _ => Err "missing closing )"
  | Escape, _ => Err "trailing backslash at end of expression"
  | (GroupOpen | GroupQuest), _ => Err "missing closing )"
  | (ClassOpen | ClassBody _ _ | ClassEscape _ _), _ => Err "missing closing ]"
  end.

Definition start : pstate := PState Normal (Frame [] [] None) [] 0 NoRepeat.

(** [syntax.Parse(pattern, syntax.Perl)]: the expression and its number
    of capture groups, or the parse error. *)
Definition Parse (pattern : string) : result (Regexp * nat) :=
  match steps start (bytes pattern) with
  | Ok st => finish st
  | Err e => Err e
  end.

(** Whether an expression can match without consuming input. *)
Fixpoint nullable (r : Regexp) : bool :=
  match r with
  | EmptyMatch | BeginText | EndText => true
  | Literal _ | CharClass _ _ | AnyCharNotNL => false
  | Capture _ r' => nullable r'
  | Star _ _ | Quest _ _ => true
  | Plus _ r' => nullable r'
  | Concat r1 r2 => nullable r1 && nullable r2
  | Alternate r1 r2 => nullable r1 || nullable r2
  end.

(** Every repetition is over an expression that consumes input, so that
    each round of each loop advances.  [(\d?)+] and a star of a star are
    not of this kind. *)
Fixpoint loops_advance (r : Regexp) : bool :=
  match r with
  | Star _ r' | Plus _ r' => negb (nullable r') && loops_advance r'
  | Capture _ r' | Quest _ r' => loops_advance r'
  | Concat r1 r2 | Alternate r1 r2 => loops_advance r1 && loops_advance r2
  | EmptyMatch | Literal _ | CharClass _ _ | AnyCharNotNL | BeginText | EndText => true
  end.

End syntax.

(** ** Package [regexp]: matching and replacement

    The matcher below is the backtracking search that gives [regexp] its
    leftmost-first matches, on the syntax trees of [Module syntax].  It
    stands for [regexp] on a range that the theorems state:

    - the input is ASCII ([ascii_text]): the model consumes a byte where
      [regexp] consumes a rune;
    - every repetition of the pattern advances ([supported]): when the
      body of a loop can match the empty string, Go's matcher and the
      model resolve the rounds that do not advance in different ways
      (Go drops a thread that comes back to a loop at the position it
      left it), and the groups can hold other text.

    Templates are ASCII as well: [expand] reads names byte by byte. *)

Module regexp.

(** A compiled expression: its source text, its syntax tree and its
    number of capture groups. *)
Record Regexp : Type := mkRegexp {
  expr : string;
  prog : syntax.Regexp;
  numSubexp : nat
}.

(** The model stands for [regexp] on this expression: its loops
    advance. *)
Definition supported (re : Regexp) : bool := syntax.loops_advance (prog re).

(** [regexp.Compile], on the fragment of [Module syntax].  The error
    quotes the pattern; Go quotes the piece of the pattern that is at
    fault, which is the same text when that piece is the whole pattern
    (as for the pattern of [TestNewProxy_InvalidRegex]). *)
Definition Compile (expr : string) : result Regexp :=
  match syntax.Parse expr with
  | Ok (r, n) => Ok (mkRegexp expr r n)
  | Err e => Err ("error parsing regexp: " +:+ e +:+ ": `" +:+ expr +:+ "`")
  end.

(** The capture array of a match: entry [n] holds the bounds of group [n]
    in the input, entry [0] those of the whole match; [None] for a group
    that took no part in the match (Go's [-1]). *)
Abbreviation captures := (list (option (nat * nat))).

(** A thread of the matcher: its position in the input, the input that
    remains from there, and the groups it has closed. *)
Record thread : Type := Thread {
  pos : nat;
  rest : list ascii;
  caps : captures
}.

Definition in_ranges (c : ascii) (rs : list (ascii * ascii)) : bool :=
  existsb (fun r => (fst r <=? c)%char && (c <=? snd r)%char) rs.

(** One character of the input: a byte, which in ASCII text is a rune. *)
Definition consume (ok : ascii -> bool) (t : thread) : list thread :=
  match rest t with
  | c :: cs => if ok c then [Thread (S (pos t)) cs (caps t)] else []
  | [] => []
  end.

(** One or more rounds of [step], in priority order.  On a [supported]
    expression every round advances and the test on the positions always
    succeeds; it is there to bound the recursion.  (On other expressions
    a round that does not advance ends its branch, which is not what
    Go's matcher does with it.) *)
Definition plus_loop (step : thread -> list thread) (greedy : bool)
  : nat -> thread -> list thread :=
  fix go (fuel : nat) (t : thread) : list thread :=
    t' ← step t;
    let again :=
      match fuel with
      | 0 => []
      | S fuel' => if bool_decide (pos t < pos t') then go fuel' t' else []
      end in
    if greedy then again ++ [t'] else t' :: again.

(** All the ways in which [r] matches at the position of [t], best
    first: the order in which a backtracking matcher tries them, which is
    the leftmost-first order [regexp] guarantees.  [x*] is [(x+)?]. *)
Fixpoint run (r : syntax.Regexp) (t : thread) : list thread :=
  match r with
  | syntax.EmptyMatch => [t]
  | syntax.Literal c => consume (fun x => (x =? c)%char) t
  | syntax.CharClass neg rs => consume (fun x => xorb neg (in_ranges x rs)) t
  | syntax.AnyCharNotNL => consume (fun x => negb (x =? "010")%char) t
  | syntax.BeginText => if bool_decide (pos t = 0) then [t] else []
  | syntax.EndText => match rest t with [] => [t] | _ :: _ => [] end
  | syntax.Capture n r' =>
    (fun t' => Thread (pos t') (rest t') (<[n := Some (pos t, pos t')]> (caps t')))
      <$> run r' t
  | syntax.Star g r' =>
    let more := plus_loop (run r') g (length (rest t)) t in
    if g then more ++ [t] else t :: more
  | syntax.Plus g r' => plus_loop (run r') g (length (rest t)) t
  | syntax.Quest g r' => if g then run r' t ++ [t] else t :: run r' t
  | syntax.Concat r1 r2 => run r1 t ≫= run r2
  | syntax.Alternate r1 r2 => run r1 t ++ run r2 t
  end.

(** The leftmost match that starts at [i] or later; [input] is the input
    from [i] on. *)
Fixpoint search (r : syntax.Regexp) (n : nat) (i : nat) (input : list ascii)
  : option captures :=
  match run r (Thread i input (replicate (S n) None)) with
  | t :: _ => Some (<[0 := Some (i, pos t)]> (caps t))
  | [] =>
    match input with
    | [] => None
    | _ :: input' => search r n (S i) input'
    end
  end.

(** [re.doExecute(..., src, pos, ...)]: the first match at or after
    [pos], or none. *)
Definition doExecute (re : Regexp) (src : list ascii) (pos : nat) : option captures :=
  if bool_decide (pos ≤ length src)
  then search (prog re) (numSubexp re) pos (drop pos src)
  else None.

(** [re.MatchString(s)] *)
Definition MatchString (re : Regexp) (s : string) : bool :=
  bool_decide (is_Some (doExecute re (bytes s) 0)).

(** The bounds and the text of group [n] of a match. *)
Definition group (a : captures) (n : nat) : option (nat * nat) :=
  match a !! n with
  | Some (Some b) => Some b
  | _ => None
  end.

Definition group_text (src : list ascii) (a : captures) (n : nat) : list ascii :=
  match group a n with
  | Some (lo, hi) => slice src lo hi
  | None => []
  end.

(** A thread is in step with [src]: what remains is [src] from its
    position on. *)
Definition in_step (src : list ascii) (t : thread) : Prop :=
  rest t = drop (pos t) src ∧ pos t ≤ length src.

(** [t'] comes after [t] on the same input and has as many capture
    slots. *)
Definition follows (src : list ascii) (t t' : thread) : Prop :=
  in_step src t' ∧ pos t ≤ pos t' ∧ length (caps t') = length (caps t).

(** The pattern matches some text of [src] that starts at [i]. *)
Definition matches_at (re : Regexp) (src : list ascii) (i : nat) : Prop :=
  i ≤ length src
  ∧ run (prog re) (Thread i (drop i src) (replicate (S (numSubexp re)) None)) ≠ [].

(** The pattern matches somewhere in [s]. *)
Definition matches_somewhere (re : Regexp) (s : string) : Prop :=
  ∃ i, matches_at re (bytes s) i.

(** *** Templates *)

Definition is_name_char (c : ascii) : bool := is_alnum c || (c =? "_")%char.

Fixpoint span (p : ascii -> bool) (s : list ascii) : list ascii * list ascii :=
  match s with
  | c :: s' => if p c then let (a, b) := span p s' in (c :: a, b) else ([], s)
  | [] => ([], [])
  end.

(** The number a name denotes, if it is one: digits only, no leading
    zero, below the cap of [extract]. *)
Fixpoint parse_num (num : N) (name : list ascii) : option N :=
  match name with
  | [] => Some num
  | c :: name' =>
    if negb (is_digit c) || (100000000 <=? num)%N then None
    else parse_num (num * 10 + (N_of_ascii c - 48))%N name'
  end.

Definition name_num (name : list ascii) : option nat :=
  match name with
  | "0"%char :: _ :: _ => None
  | _ => N.to_nat <$> parse_num 0 name
  end.

(** [extract(str)]: the name that follows a [$], as [name] or [{name}];
    its number, if it is one; and the template after it. *)
Definition extract (s : list ascii)
  : option (list ascii * option nat * list ascii) :=
  match s with
  | [] => None
  | c :: s' =>
    let brace := (c =? "{")%char in
    let (name, after) := span is_name_char (if brace then s' else s) in
    match name with
    | [] => None
    | _ :: _ =>
      if brace then
        match after with
        | "}"%char :: after' => Some (name, name_num name, after')
        | _ => None
        end
      else Some (name, name_num name, after)
    end
  end.

(** [re.expand(dst, template, nil, src, match)], without the [dst]
    prefix: [$$] is a dollar sign, [$name] and [${name}] the text of a
    group, a [$] that starts no name is itself.  No group of the fragment
    has a name, so a name that is not a number expands to nothing.  Each
    round consumes at least the [$]; [fuel] bounds the rounds. *)
Fixpoint expand_from (fuel : nat) (template src : list ascii) (a : captures)
  : list ascii :=
  match fuel with
  | 0 => template
  | S fuel' =>
    let (before, after) := span (fun c => negb (c =? "$")%char) template in
    match after with
    | [] => template
    | _ :: after' =>
      match after' with
      | "$"%char :: after'' =>
        before ++ "$"%char :: expand_from fuel' after'' src a
      | _ =>
        match extract after' with
        | None => before ++ "$"%char :: expand_from fuel' after' src a
        | Some (_, Some num, rest') =>
          before ++ group_text src a num ++ expand_from fuel' rest' src a
        | Some (_, None, rest') => before ++ expand_from fuel' rest' src a
        end
      end
    end
  end.

Definition expand (template src : list ascii) (a : captures) : list ascii :=
  expand_from (length template) template src a.

(** The template with its group references replaced, as the
    specification words it: [Substituted src a template out] reads the
    template as literal text and references [$N], [N] a digit that no
    letter, digit or underscore follows, and [out] is the template with
    the text group [N] matched in the place of each [$N]. *)
Definition no_dollar (c : ascii) : bool := negb (c =? "$")%char.

Definition digit_value (d : ascii) : nat := N.to_nat (N_of_ascii d - 48).

Inductive Substituted (src : list ascii) (a : captures)
  : list ascii → list ascii → Prop :=
| substituted_text template :
    forallb no_dollar template = true →
    Substituted src a template template
| substituted_group lit d rest out :
    forallb no_dollar lit = true →
    is_digit d = true →
    match rest with [] => True | c :: _ => is_name_char c = false end →
    Substituted src a rest out →
    Substituted src a (lit ++ "$"%char :: d :: rest)
                (lit ++ group_text src a (digit_value d) ++ out).

(** *** Replacement *)

(** Where the search resumes after a match that ends at [a1]: past the
    match, and at least one character on ([width] is that of the rune at
    [searchPos]: one byte in ASCII text, none at the end of the
    input). *)
Definition advance (src : list ascii) (searchPos a1 : nat) : nat :=
  let width := if bool_decide (searchPos < length src) then 1 else 0 in
  if bool_decide (a1 < searchPos + width) then searchPos + width
  else if bool_decide (a1 < searchPos + 1) then searchPos + 1
  else a1.

(** Whether the replacement is inserted for a match: not for an empty
    match right after the previous match. *)
Definition replaces (lastMatchEnd a0 a1 : nat) : bool :=
  bool_decide (lastMatchEnd < a1) || bool_decide (a0 = 0).

(** The loop of [re.replaceAll]: [buf] is the output so far,
    [lastMatchEnd] the end of the most recent match, [searchPos] where
    the next match is looked for.  The loop runs while
    [searchPos <= len(src)] and [searchPos] grows in every round, so
    [S (length src)] rounds are all there can be. *)
Fixpoint replaceAll_loop (re : Regexp) (src : list ascii)
    (repl : captures -> list ascii)
    (fuel lastMatchEnd searchPos : nat) (buf : list ascii) : list ascii :=
  match fuel with
  | 0 => buf ++ drop lastMatchEnd src
  | S fuel' =>
    if bool_decide (length src < searchPos) then buf ++ drop lastMatchEnd src
    else
      match doExecute re src searchPos with
      | None => buf ++ drop lastMatchEnd src
      | Some a =>
        match group a 0 with
        | None => buf ++ drop lastMatchEnd src
        | Some (a0, a1) =>
          let buf := buf ++ slice src lastMatchEnd a0 in
          let buf := if replaces lastMatchEnd a0 a1 then buf ++ repl a else buf in
          replaceAll_loop re src repl fuel' a1 (advance src searchPos a1) buf
        end
      end
  end.

Definition replaceAll (re : Regexp) (src : list ascii)
    (repl : captures -> list ascii) : list ascii :=
  replaceAll_loop re src repl (S (length src)) 0 0 [].

(** [re.ReplaceAllString(src, repl)] *)
Definition ReplaceAllString (re : Regexp) (src repl : string) : string :=
  str (replaceAll re (bytes src) (expand (bytes repl) (bytes src))).

(** *** What replacement comes to

    A segment is a stretch of input that no match covers, followed by a
    match.  [stitch f segs tail] writes the segments out with [f] of each
    match in the place of the match, then [tail]. *)
Abbreviation segment := (list ascii * captures)%type.

Definition stitch (f : captures → list ascii) (segs : list segment) (tail : list ascii)
  : list ascii :=
  (segs ≫= fun s => fst s ++ f (snd s)) ++ tail.

(** [Occurrences re src last q segs e]: searching [src] on from [q],
    with the previous match ending at [last], the successive matches that
    get replaced are those of [segs], each with the text between it and
    the match before, and the last match found ends at [e].  Every match
    the search finds is replaced, except an empty match right at the end
    of the match before it. *)
Inductive Occurrences (re : Regexp) (src : list ascii)
  : nat → nat → list segment → nat → Prop :=
| occ_done last q :
    length src < q ∨ doExecute re src q = None →
    Occurrences re src last q [] last
| occ_replace last q a a0 a1 segs e :
    q ≤ length src →
    doExecute re src q = Some a →
    group a 0 = Some (a0, a1) →
    replaces last a0 a1 = true →
    Occurrences re src a1 (advance src q a1) segs e →
    Occurrences re src last q ((slice src last a0, a) :: segs) e
| occ_skip last q a a0 a1 segs e :
    q ≤ length src →
    doExecute re src q = Some a →
    group a 0 = Some (a0, a1) →
    replaces last a0 a1 = false →
    Occurrences re src a1 (advance src q a1) segs e →
    Occurrences re src last q segs e.

End regexp.

(** ** Package [net/url] *)

Module url.

(** The fields of [url.URL] that the proxies read or set.  No URL of the
    modelled fragment carries user information, a fragment or a raw path
    that differs from the escaped path; those fields are left out. *)
Record URL : Type := mkURL {
  Scheme : string;
  Opaque : string;
  Host : string;
  Path : string;
  OmitHost : bool;
  ForceQuery : bool;
  RawQuery : string
}.

Inductive encoding : Type :=
| encodePath
| encodeHost.

Definition one_of (c : ascii) (set : string) : bool :=
  bool_decide (c ∈ bytes set).

(** [shouldEscape(c, mode)], for the two modes [String] uses. *)
Definition shouldEscape (c : ascii) (mode : encoding) : bool :=
  if is_alnum c then false
  else if match mode with
          | encodeHost => one_of c "!$&'()*+,;=:[]<>" || (c =? "034")%char
          | encodePath => false
          end then false
  else if one_of c "-_.~" then false
  else if one_of c "$&+,/:;=?@" then
    match mode with
    | encodePath => (c =? "?")%char
    | encodeHost => true
    end
  else true.

Definition hex_digit (n : N) : ascii :=
  match bytes "0123456789ABCDEF" !! N.to_nat n with
  | Some c => c
  | None => "0"%char
  end.

(** [escape(s, mode)]: percent-encoding of the bytes that need it. *)
Fixpoint escape (s : list ascii) (mode : encoding) : list ascii :=
  match s with
  | [] => []
  | c :: s' =>
    if shouldEscape c mode
    then "%"%char :: hex_digit (N_of_ascii c / 16) :: hex_digit (N_of_ascii c mod 16)
           :: escape s' mode
    else c :: escape s' mode
  end.

(** [strings.Cut(s, sep)] for a one-byte separator. *)
Fixpoint cut (sep : ascii) (s : list ascii) : list ascii * option (list ascii) :=
  match s with
  | [] => ([], None)
  | c :: s' =>
    if (c =? sep)%char then ([], Some s')
    else let (a, b) := cut sep s' in (c :: a, b)
  end.

(** [u.EscapedPath()] *)
Definition EscapedPath (u : URL) : list ascii :=
  if bool_decide (Path u = "*") then bytes "*" else escape (bytes (Path u)) encodePath.

(** [u.String()] *)
Definition String (u : URL) : string :=
  let scheme := if bool_decide (Scheme u = "") then "" else Scheme u +:+ ":" in
  let rest :=
    if bool_decide (Opaque u = "") then
      let authority :=
        if bool_decide (Scheme u = "") && bool_decide (Host u = "") then ""
        else if OmitHost u && bool_decide (Host u = "") then ""
        else
          (if bool_decide (Host u = "") && bool_decide (Path u = "") then "" else "//")
          +:+ str (escape (bytes (Host u)) encodeHost) in
      let path := EscapedPath u in
      let slash :=
        match path with
        | c :: _ =>
          if negb (c =? "/")%char && negb (bool_decide (Host u = "")) then "/" else ""
        | [] => ""
        end in
      let dot :=
        if bool_decide (scheme +:+ authority +:+ slash = "")
           && bool_decide (":"%char ∈ fst (cut "/" path))
        then "./" else "" in
      authority +:+ slash +:+ dot +:+ str path
    else Opaque u in
  let query :=
    if ForceQuery u || negb (bool_decide (RawQuery u = "")) then "?" +:+ RawQuery u
    else "" in
  scheme +:+ rest +:+ query.

(** [getScheme(rawURL)]: the scheme and what follows its colon. *)
Fixpoint getScheme_from (i : nat) (seen rawURL : list ascii)
  : result (list ascii * list ascii) :=
  match rawURL with
  | [] => Ok ([], reverse seen)
  | c :: rest =>
    if is_lower c || is_upper c then getScheme_from (S i) (c :: seen) rest
    else if is_digit c || one_of c "+-." then
      if bool_decide (i = 0) then Ok ([], reverse seen ++ rawURL)
      else getScheme_from (S i) (c :: seen) rest
    else if (c =? ":")%char then
      if bool_decide (i = 0) then Err "missing protocol scheme"
      else Ok (reverse seen, rest)
    else Ok ([], reverse seen ++ rawURL)
  end.

Definition to_lower (c : ascii) : ascii :=
  if is_upper c then ascii_of_N (N_of_ascii c + 32) else c.

Definition is_ctl (c : ascii) : bool := (c <? " ")%char || (c =? "127")%char.

(** The port check of [parseHost]: after the last colon, digits only. *)
Definition validOptionalPort (host : list ascii) : bool :=
  match cut ":" (reverse host) with
  | (port, Some _) => forallb is_digit port
  | (_, None) => true
  end.

(** [url.Parse(rawURL)] on the fragment: text with no [%], [#], [@],
    bracket or non-ASCII byte, whose path needs no escaping.  On such
    text the steps are those of [parse]: scheme, query, then opaque text
    or authority and path.  Text outside the fragment is answered with an
    [unsupported] error. *)
Definition Parse (rawURL : string) : result URL :=
  let raw := bytes rawURL in
  let wrap (msg : string) : result URL := Err ("parse " +:+ rawURL +:+ ": " +:+ msg) in
  if existsb is_ctl raw then wrap "net/url: invalid control character in URL"
  else if existsb (fun c => negb (is_ascii c) || one_of c "%#@[]") raw
  then wrap "unsupported"
  else if bool_decide (rawURL = "*") then Ok (mkURL "" "" "" "*" false false "")
  else
    match getScheme_from 0 [] raw with
    | Err e => wrap e
    | Ok (scheme, rest) =>
      let scheme := str (to_lower <$> scheme) in
      let '(rest, force, query) :=
        match cut "?" rest with
        | (r, Some []) => (r, true, [])
        | (r, Some q) => (r, false, q)
        | (r, None) => (r, false, [])
        end in
      if negb (has_prefix (bytes "/") rest) && negb (bool_decide (scheme = ""))
      then Ok (mkURL scheme (str rest) "" "" false force (str query))
      else if negb (has_prefix (bytes "/") rest)
              && bool_decide (":"%char ∈ fst (cut "/" rest))
      then wrap "first path segment in URL cannot contain colon"
      else
        let '(host, path, omit) :=
          if (negb (bool_decide (scheme = "")) || negb (has_prefix (bytes "///") rest))
             && has_prefix (bytes "//") rest
          then
            match cut "/" (drop 2 rest) with
            | (h, Some p) => (h, "/"%char :: p, false)
            | (h, None) => (h, [], false)
            end
          else
            ([], rest, negb (bool_decide (scheme = "")) && has_prefix (bytes "/") rest) in
        if negb (validOptionalPort host) then wrap "invalid port after host"
        else if existsb (fun c => shouldEscape c encodeHost) host
        then wrap "invalid character in host name"
        else if existsb (fun c => shouldEscape c encodePath) path
        then wrap "unsupported"
        else Ok (mkURL scheme "" (str host) (str path) omit force (str query))
    end.

End url.

(** ** Package [net/http] *)

Module http.

(** [http.Header]: a map from names to the list of their values. *)
Abbreviation Header := (gmap string (list string)).

(** The bytes a header name may hold ([validHeaderFieldByte]); the same
    table decides which bytes a method may hold. *)
Definition is_token (c : ascii) : bool :=
  is_alnum c || url.one_of c "!#$%&'*+-.^_`|~".

Definition canonical_char (upper : bool) (c : ascii) : ascii :=
  if upper && is_lower c then ascii_of_N (N_of_ascii c - 32)
  else if negb upper && is_upper c then ascii_of_N (N_of_ascii c + 32)
  else c.

(** Upper case at the start and after each dash, lower case elsewhere. *)
Fixpoint canonical_case (upper : bool) (s : list ascii) : list ascii :=
  match s with
  | [] => []
  | c :: s' =>
    let c' := canonical_char upper c in
    c' :: canonical_case (c' =? "-")%char s'
  end.

(** [textproto.CanonicalMIMEHeaderKey]: [accept-encoding] becomes
    [Accept-Encoding]; a name with a byte that no header name may hold is
    left as it is. *)
Definition CanonicalMIMEHeaderKey (s : string) : string :=
  if forallb is_token (bytes s) then str (canonical_case true (bytes s)) else s.

(** [h.Add(key, value)] *)
Definition Add (key value : string) (h : Header) : Header :=
  let key := CanonicalMIMEHeaderKey key in
  <[key := default [] (h !! key) ++ [value]]> h.

(** [h.Set(key, value)] *)
Definition Set_ (key value : string) (h : Header) : Header :=
  <[CanonicalMIMEHeaderKey key := [value]]> h.

(** The pair [name: value] is present in [h]. *)
Definition has_pair (h : Header) (name value : string) : Prop :=
  ∃ values, h !! name = Some values ∧ value ∈ values.

(** A body is a stream; the model keeps the bytes it delivers.  [None]
    is Go's [nil] body. *)
Definition ReadCloser : Type := string.

Record Request : Type := mkRequest {
  Method : string;
  URL : url.URL;
  ReqHeader : Header;
  ReqBody : option ReadCloser;
  Host : string;
  RemoteAddr : string
}.

(** A response; [Closed] records that [resp.Body.Close()] has run. *)
Record Response : Type := mkResponse {
  StatusCode : nat;
  RespHeader : Header;
  RespBody : string;
  Closed : bool
}.

Definition Close (resp : Response) : Response :=
  mkResponse (StatusCode resp) (RespHeader resp) (RespBody resp) true.

Definition StatusNotFound : nat := 404.
Definition StatusInternalServerError : nat := 500.
Definition StatusBadGateway : nat := 502.

(** [CheckRedirect]: the one policy the proxies install returns
    [http.ErrUseLastResponse]. *)
Inductive RedirectPolicy : Type :=
| UseLastResponse.

(** [http.Client]: the timeout in seconds and the redirect policy
    ([None]: the default, which follows redirects). *)
Record Client : Type := mkClient {
  Timeout : nat;
  CheckRedirect : option RedirectPolicy
}.

(** What a handler has written: the header map, the status once
    [WriteHeader] has run, the body. *)
Record ResponseWriter : Type := mkWriter {
  wHeader : Header;
  wCode : option nat;
  wBody : string
}.

Definition NewRecorder : ResponseWriter := mkWriter ∅ None "".

(** [checkWriteHeaderCode(code)]: a status code has three digits. *)
Definition checkWriteHeaderCode (code : nat) : bool :=
  bool_decide (100 ≤ code) && bool_decide (code ≤ 999).

(** [w.WriteHeader(code)] of [httptest.ResponseRecorder]: a second call
    changes nothing; the first call panics when the code fails
    [checkWriteHeaderCode] ([None]), and sets the status otherwise.  The
    writer of a server does the same for 101 and for the codes from 200
    on; it sends the other 1xx codes as interim responses.  What is
    proved of a status that reaches the client is proved for the codes
    200..999. *)
Definition WriteHeader (code : nat) (w : ResponseWriter) : option ResponseWriter :=
  match wCode w with
  | Some _ => Some w
  | None =>
    if checkWriteHeaderCode code then Some (mkWriter (wHeader w) (Some code) (wBody w))
    else None
  end.

(** [w.Write(data)]; the first write sends status 200 if none was set. *)
Definition Write_ (data : string) (w : ResponseWriter) : ResponseWriter :=
  mkWriter (wHeader w) (Some (default 200 (wCode w))) (wBody w +:+ data).

(** [http.Error(w, error, code)].  A panic in [WriteHeader] ends the
    caller: the writer stays as the panic found it. *)
Definition Error (error : string) (code : nat) (w : ResponseWriter) : ResponseWriter :=
  let h := Set_ "X-Content-Type-Options" "nosniff"
             (Set_ "Content-Type" "text/plain; charset=utf-8" (wHeader w)) in
  match WriteHeader code (mkWriter h (wCode w) (wBody w)) with
  | Some w' => Write_ (error +:+ (String "010" "")) w'
  | None => mkWriter h (wCode w) (wBody w)
  end.

(** [io.Copy(w, resp.Body)]: a body that was closed delivers nothing
    (the read fails and the handler only logs the error). *)
Definition Copy (resp : Response) (w : ResponseWriter) : ResponseWriter :=
  if Closed resp then w else Write_ (RespBody resp) w.

(** [validMethod(method)] *)
Definition validMethod (method : string) : bool :=
  negb (bool_decide (method = "")) && forallb is_token (bytes method).

(** A trailing colon with no port is dropped from the host. *)
Definition removeEmptyPort (host : string) : string :=
  match reverse (bytes host) with
  | ":"%char :: h => str (reverse h)
  | _ => host
  end.

End http.

(** ** The libraries as interfaces *)

(** Package [regexp], as the mapping proxy uses it; [Regexp] is the type
    of compiled expressions. *)
Class RegexpLib (Regexp : Type) : Type := {
  Compile : string → result Regexp;
  MatchString : Regexp → string → bool;
  ReplaceAllString : Regexp → string → string → string
}.

(** Package [net/url], as the proxies use it. *)
Class UrlLib : Type := {
  Parse : string → result url.URL;
  URL_String : url.URL → string
}.

(** The network behind [client.Do]: a request and the state of the world
    give a response or a transport error, and the next state. *)
Class Transport (World : Type) : Type := {
  RoundTrip : http.Client → http.Request → World → result http.Response * World
}.

#[export] Instance go_regexp : RegexpLib regexp.Regexp := {|
  Compile := regexp.Compile;
  MatchString := regexp.MatchString;
  ReplaceAllString := regexp.ReplaceAllString
|}.

#[export] Instance go_url : UrlLib := {|
  Parse := url.Parse;
  URL_String := url.String
|}.

Section Client.
Context `{UrlLib} {World : Type} `{!Transport World}.

(** [http.NewRequest(method, url, body)] *)
Definition NewRequest (method target : string) (body : option http.ReadCloser)
  : result http.Request :=
  let method := if bool_decide (method = "") then "GET" else method in
  if negb (http.validMethod method) then Err ("net/http: invalid method " +:+ method)
  else
    match Parse target with
    | Err e => Err e
    | Ok u =>
      Ok (http.mkRequest method u ∅ body (http.removeEmptyPort (url.Host u)) "")
    end.

(** The network as the handler sees it: the state of the world and the
    requests handed to [client.Do] so far, oldest first. *)
Record Net : Type := mkNet {
  world : World;
  sent : list http.Request
}.

(** [client.Do(req)] *)
Definition Do (c : http.Client) (req : http.Request) (n : Net)
  : result http.Response * Net :=
  let (res, world') := RoundTrip c req (world n) in
  (res, mkNet world' (sent n ++ [req])).

(** The header-copying loop of the handlers:
    [for name, values := range src { for _, value := range values { dst.Add(name, value) } }].
    [entries] lists [src] in the order in which [range] visits it, which
    Go does not fix; what is proved of the loop holds for every order. *)
Definition add_values (name : string) (values : list string) (dst : http.Header)
  : http.Header :=
  foldl (fun h value => http.Add name value h) dst values.

Definition add_entries (entries : list (string * list string)) (dst : http.Header)
  : http.Header :=
  foldl (fun h e => add_values (fst e) (snd e) h) dst entries.

Definition copy_header (src dst : http.Header) : http.Header :=
  add_entries (map_to_list src) dst.

(** What every generation of the handler does to the outbound request:
    the headers of [r] added to those of [proxyReq], then
    [X-Forwarded-For] set when the client address is known. *)
Definition forward_headers (r proxyReq : http.Request) : http.Request :=
  let h := copy_header (http.ReqHeader r) (http.ReqHeader proxyReq) in
  let h := if negb (bool_decide (http.RemoteAddr r = ""))
           then http.Set_ "X-Forwarded-For" (http.RemoteAddr r) h
           else h in
  http.mkRequest (http.Method proxyReq) (http.URL proxyReq) h
                 (http.ReqBody proxyReq) (http.Host proxyReq) (http.RemoteAddr proxyReq).

(** And to the response: headers, status and body of [resp] written to
    the client.  When [WriteHeader] panics (a status outside 100..999)
    the handler ends there: the headers are in the map of the writer,
    neither status nor body has been written. *)
Definition relay (resp : http.Response) (w : http.ResponseWriter) : http.ResponseWriter :=
  let w := http.mkWriter (copy_header (http.RespHeader resp) (http.wHeader w))
                         (http.wCode w) (http.wBody w) in
  match http.WriteHeader (http.StatusCode resp) w with
  | Some w' => http.Copy resp w'
  | None => w
  end.

(** [req] is what a handler sends for [r] when it builds the outbound
    request with body [body]: the request [http.NewRequest] makes for the
    method of [r], some target and [body], with the headers forwarded. *)
Definition outbound (r : http.Request) (body : option http.ReadCloser)
    (req : http.Request) : Prop :=
  ∃ target proxyReq,
    NewRequest (http.Method r) target body = Ok proxyReq
    ∧ req = forward_headers r proxyReq.

(** The method a request goes out with: [http.NewRequest] reads an empty
    method as GET. *)
Definition method_sent (r : http.Request) : string :=
  if bool_decide (http.Method r = "") then "GET" else http.Method r.

(** [req] carries the headers of [r]: every pair of [r], under the
    canonical form of its name, unless [X-Forwarded-For] was overwritten;
    and [X-Forwarded-For] is the client address when there is one. *)
Definition carries_headers (r req : http.Request) : Prop :=
  (∀ name value,
     http.has_pair (http.ReqHeader r) name value →
     http.CanonicalMIMEHeaderKey name ≠ "X-Forwarded-For" ∨ http.RemoteAddr r = "" →
     http.has_pair (http.ReqHeader req) (http.CanonicalMIMEHeaderKey name) value)
  ∧ (http.RemoteAddr r ≠ "" →
     http.ReqHeader req !! "X-Forwarded-For" = Some [http.RemoteAddr r]).

(** [w] holds the headers of [resp]. *)
Definition returns_headers (resp : http.Response) (w : http.ResponseWriter) : Prop :=
  ∀ name value,
    http.has_pair (http.RespHeader resp) name value →
    http.has_pair (http.wHeader w) (http.CanonicalMIMEHeaderKey name) value.

(** [req] has the headers of [r] verbatim: every pair of [r], under its
    own name, unless [X-Forwarded-For] was overwritten; and
    [X-Forwarded-For] is the client address when there is one. *)
Definition verbatim_headers (r req : http.Request) : Prop :=
  (∀ name value,
     http.has_pair (http.ReqHeader r) name value →
     name ≠ "X-Forwarded-For" ∨ http.RemoteAddr r = "" →
     http.has_pair (http.ReqHeader req) name value)
  ∧ (http.RemoteAddr r ≠ "" →
     http.ReqHeader req !! "X-Forwarded-For" = Some [http.RemoteAddr r]).

End Client.

(** ** The mapping proxy ([main.go], regex path mappings) *)

Module MappingProxy.

Record PathMapping : Type := mkPathMapping {
  From : string;
  To : string
}.

Record Config : Type := mkConfig {
  DefaultHost : string;
  PathMappings : list PathMapping;
  FollowRedirects : bool
}.

Section Program.
Context {Regexp : Type} `{!RegexpLib Regexp} `{UrlLib} {World : Type} `{!Transport World}.

Record compiledMapping : Type := mkCompiled {
  regex : Regexp;
  to : string
}.

Record Proxy : Type := mkProxy {
  client : http.Client;
  defaultHost : string;
  compiledMappings : list compiledMapping;
  followRedirects : bool
}.

(** The loop of [NewProxy]: compile the patterns in order, stop at the
    first one that does not compile. *)
Fixpoint compile_mappings (mappings : list PathMapping) (compiled : list compiledMapping)
  : result (list compiledMapping) :=
  match mappings with
  | [] => Ok compiled
  | mapping :: mappings' =>
    match Compile (From mapping) with
    | Err err => Err ("invalid regex pattern '" +:+ From mapping +:+ "': " +:+ err)
    | Ok regex => compile_mappings mappings' (compiled ++ [mkCompiled regex (To mapping)])
    end
  end.

Definition NewProxy (defaultHost : string) (mappings : list PathMapping)
    (followRedirects : bool) : result Proxy :=
  match compile_mappings mappings [] with
  | Err err => Err err
  | Ok compiled =>
    let client :=
      http.mkClient 30
        (if negb followRedirects then Some http.UseLastResponse else None) in
    Ok (mkProxy client defaultHost compiled followRedirects)
  end.

Fixpoint find_in (mappings : list compiledMapping) (path : string) : string * bool :=
  match mappings with
  | [] => ("", false)
  | mapping :: mappings' =>
    if MatchString (regex mapping) path
    then (ReplaceAllString (regex mapping) path (to mapping), true)
    else find_in mappings' path
  end.

Definition findMapping (p : Proxy) (path : string) : string * bool :=
  find_in (compiledMappings p) path.

(** The string the mappings are matched against: [originalPath] in
    [buildTargetURL]. *)
Definition originalPath (r : http.Request) : string :=
  let originalPath := url.Path (http.URL r) in
  if negb (bool_decide (url.RawQuery (http.URL r) = ""))
  then originalPath +:+ "?" +:+ url.RawQuery (http.URL r)
  else originalPath.

Definition buildTargetURL (p : Proxy) (r : http.Request) : result string :=
  match findMapping p (originalPath r) with
  | (mappedURL, true) => Ok mappedURL
  | (_, false) =>
    if bool_decide (defaultHost p = "")
    then Err "no default host configured and no mapping matched"
    else
      match Parse (defaultHost p) with
      | Err err => Err ("invalid default host: " +:+ err)
      | Ok parsed =>
        let targetURL :=
          url.mkURL (url.Scheme parsed) "" (url.Host parsed)
                    (url.Path (http.URL r)) false false (url.RawQuery (http.URL r)) in
        Ok (URL_String targetURL)
      end
  end.

Definition ServeHTTP (p : Proxy) (w : http.ResponseWriter) (r : http.Request) (n : Net)
  : http.ResponseWriter * Net :=
  match buildTargetURL p r with
  | Err err =>
    (http.Error ("Failed to build target URL: " +:+ err) http.StatusBadGateway w, n)
  | Ok targetURL =>
    match NewRequest (http.Method r) targetURL (http.ReqBody r) with
    | Err _ =>
      (http.Error "Failed to create proxy request" http.StatusInternalServerError w, n)
    | Ok proxyReq =>
      let proxyReq := forward_headers r proxyReq in
      match Do (client p) proxyReq n with
      | (Err _, n') =>
        (http.Error "Failed to reach target server" http.StatusBadGateway w, n')
      | (Ok resp, n') => (relay resp w, n')
      end
    end
  end.

End Program.

(** *** Startup: [loadConfig] and [main] *)

(** What [loadConfig] reads through: [os.ReadFile] and [yaml.Unmarshal]
    into a [Config]. *)
Class ConfigFiles : Type := {
  ReadFile : string → result string;
  Unmarshal : string → result Config
}.

(** The values of the command-line flags once [flag.Parse] has run; each
    holds its default when the flag was not given. *)
Record Flags : Type := mkFlags {
  configFile : string;
  port : string;
  hostOverride : string;
  followRedirectsFlag : bool
}.

Definition default_flags : Flags := mkFlags "config.yaml" "" "" false.

Section Startup.
Context {Regexp : Type} `{!RegexpLib Regexp} `{ConfigFiles}.

Definition loadConfig (path : string) : result Config :=
  match ReadFile path with
  | Err err => Err ("failed to read config file: " +:+ err)
  | Ok data =>
    match Unmarshal data with
    | Err err => Err ("failed to parse config file: " +:+ err)
    | Ok config => Ok config
    end
  end.

(** How [main] ends: it returns at once (test mode), it stops in
    [log.Fatalf], or it reaches [http.ListenAndServe(addr, proxy)]. *)
Inductive outcome : Type :=
| Returned
| Fatal (msg : string)
| Serving (addr : string) (proxy : Proxy (Regexp := Regexp)).

(** [main], from the arguments of the process, the parsed flags and the
    environment ([os.Getenv]) to the call that serves. *)
Definition main (args : list string) (flags : Flags) (Getenv : string → string)
  : outcome :=
  if bool_decide (1 < length args) && bool_decide (args !! 1 = Some "test")
  then Returned
  else
    let configFile :=
      if negb (bool_decide (Getenv "CONFIG_FILE" = ""))
         && bool_decide (configFile flags = "config.yaml")
      then Getenv "CONFIG_FILE" else configFile flags in
    let followRedirectsFlag :=
      if bool_decide (Getenv "FOLLOW_REDIRECTS" = "true")
         && negb (followRedirectsFlag flags)
      then true else followRedirectsFlag flags in
    let listenPort :=
      if bool_decide (port flags = "") then
        if negb (bool_decide (Getenv "PORT" = "")) then Getenv "PORT" else "8080"
      else port flags in
    let config :=
      match loadConfig configFile with
      | Ok config => config
      | Err _ => mkConfig "" [] false
      end in
    let defaultHost :=
      if negb (bool_decide (hostOverride flags = "")) then hostOverride flags
      else DefaultHost config in
    let followRedirects :=
      if followRedirectsFlag then true else FollowRedirects config in
    match NewProxy defaultHost (PathMappings config) followRedirects with
    | Err err => Fatal ("Failed to create proxy: " +:+ err)
    | Ok proxy => Serving (":" +:+ listenPort) proxy
    end.

End Startup.
End MappingProxy.

(** ** The mirror proxy ([main.go], 404 failover) *)

Module MirrorProxy.

Record Proxy : Type := mkProxy {
  client : http.Client;
  mirrors : list string
}.

Definition NewProxy (mirrors : list string) : Proxy :=
  mkProxy (http.mkClient 30 (Some http.UseLastResponse)) mirrors.

Section Program.
Context `{UrlLib} {World : Type} `{!Transport World}.

Definition tryRequest (p : Proxy) (targetURL : string) (r : http.Request) (n : Net)
  : result http.Response * Net :=
  match NewRequest (http.Method r) targetURL None with
  | Err err => (Err err, n)
  | Ok proxyReq => Do (client p) (forward_headers r proxyReq) n
  end.

Definition replaceHost (p : Proxy) (originalURL newHost : string) : result string :=
  match Parse originalURL with
  | Err err => Err err
  | Ok parsed =>
    match Parse newHost with
    | Err err => Err err
    | Ok mirrorParsed =>
      Ok (URL_String
            (url.mkURL (url.Scheme mirrorParsed) (url.Opaque parsed) (url.Host mirrorParsed)
                       (url.Path parsed) (url.OmitHost parsed) (url.ForceQuery parsed)
                       (url.RawQuery parsed)))
    end
  end.

(** The loop over the mirrors; [resp] is the response the handler holds
    when the loop is entered and keeps unless a mirror answers with
    something other than 404. *)
Fixpoint try_mirrors (p : Proxy) (targetURL : string) (r : http.Request)
    (mirrors : list string) (resp : http.Response) (n : Net) : http.Response * Net :=
  match mirrors with
  | [] => (resp, n)
  | mirror :: mirrors' =>
    match replaceHost p targetURL mirror with
    | Err _ => try_mirrors p targetURL r mirrors' resp n
    | Ok mirrorURL =>
      match tryRequest p mirrorURL r n with
      | (Err _, n') => try_mirrors p targetURL r mirrors' resp n'
      | (Ok mirrorResp, n') =>
        if negb (bool_decide (http.StatusCode mirrorResp = http.StatusNotFound))
        then (mirrorResp, n')
        else try_mirrors p targetURL r mirrors' resp n'
      end
    end
  end.

(** The URL of the primary attempt. *)
Definition target_of (r : http.Request) : string :=
  if bool_decide (url.Scheme (http.URL r) = "") then
    let targetURL := "http://" +:+ http.Host r +:+ url.Path (http.URL r) in
    if negb (bool_decide (url.RawQuery (http.URL r) = ""))
    then targetURL +:+ "?" +:+ url.RawQuery (http.URL r)
    else targetURL
  else URL_String (http.URL r).

Definition ServeHTTP (p : Proxy) (w : http.ResponseWriter) (r : http.Request) (n : Net)
  : http.ResponseWriter * Net :=
  let targetURL := target_of r in
  match tryRequest p targetURL r n with
  | (Err _, n') =>
    (http.Error "Failed to reach target server" http.StatusBadGateway w, n')
  | (Ok resp, n') =>
    let (resp, n'') :=
      if bool_decide (http.StatusCode resp = http.StatusNotFound)
         && bool_decide (0 < length (mirrors p))
      then try_mirrors p targetURL r (mirrors p) (http.Close resp) n'
      else (resp, n') in
    (relay resp w, n'')
  end.

(** *** The failover policy, mirror by mirror *)

(** What the attempt against one mirror comes to: the mirror is skipped
    (its URL cannot be built, or the request fails in transport), it
    answers 404 as well, or it answers with something else. *)
Inductive outcome : Type :=
| Skipped
| StillNotFound
| Answered (resp : http.Response).

Definition attempt (p : Proxy) (targetURL : string) (r : http.Request)
    (mirror : string) (n : Net) : outcome * Net :=
  match replaceHost p targetURL mirror with
  | Err _ => (Skipped, n)
  | Ok mirrorURL =>
    match tryRequest p mirrorURL r n with
    | (Err _, n') => (Skipped, n')
    | (Ok mirrorResp, n') =>
      if bool_decide (http.StatusCode mirrorResp = http.StatusNotFound)
      then (StillNotFound, n')
      else (Answered mirrorResp, n')
    end
  end.

(** Every mirror of the list, tried in order from [n], is skipped or
    answers 404; the network is then as in the result. *)
Fixpoint all_miss (p : Proxy) (targetURL : string) (r : http.Request)
    (mirrors : list string) (n : Net) : option Net :=
  match mirrors with
  | [] => Some n
  | mirror :: mirrors' =>
    match attempt p targetURL r mirror n with
    | (Answered _, _) => None
    | (_, n') => all_miss p targetURL r mirrors' n'
    end
  end.

(** The URLs of the mirrors for which [replaceHost] succeeds, in order. *)
Definition rewrites (p : Proxy) (targetURL : string) (mirrors : list string)
  : list string :=
  omap (fun mirror => match replaceHost p targetURL mirror with
                      | Ok mirrorURL => Some mirrorURL
                      | Err _ => None
                      end) mirrors.

(** The requests [tryRequest] sends for [r] to the URLs of a list, in
    order: one for each URL that [http.NewRequest] accepts. *)
Definition requests_to (r : http.Request) (urls : list string) : list http.Request :=
  target ← urls;
  match NewRequest (http.Method r) target None with
  | Ok proxyReq => [forward_headers r proxyReq]
  | Err _ => []
  end.

End Program.
End MirrorProxy.

(** ** The plain proxy ([main.go], no mappings, no mirrors) *)

Module PlainProxy.

Record Proxy : Type := mkProxy {
  client : http.Client
}.

Definition NewProxy : Proxy :=
  mkProxy (http.mkClient 30 (Some http.UseLastResponse)).

Section Program.
Context `{UrlLib} {World : Type} `{!Transport World}.

(** The target is built by the lines the mirror proxy has kept. *)
Definition ServeHTTP (p : Proxy) (w : http.ResponseWriter) (r : http.Request) (n : Net)
  : http.ResponseWriter * Net :=
  let targetURL := MirrorProxy.target_of r in
  match NewRequest (http.Method r) targetURL (http.ReqBody r) with
  | Err _ =>
    (http.Error "Failed to create proxy request" http.StatusInternalServerError w, n)
  | Ok proxyReq =>
    let proxyReq := forward_headers r proxyReq in
    match Do (client p) proxyReq n with
    | (Err _, n') =>
      (http.Error "Failed to reach target server" http.StatusBadGateway w, n')
    | (Ok resp, n') => (relay resp w, n')
    end
  end.

End Program.
End PlainProxy.

(** ** Header maps as [net/http] builds them *)

(** Text that [escape] leaves as it is. *)
Definition clean (mode : url.encoding) (s : list ascii) : bool :=
  forallb (fun c => negb (url.shouldEscape c mode)) s.

(** Every name is in canonical form and has at least one value. *)
Definition canonical_header (h : http.Header) : Prop :=
  ∀ name values,
    h !! name = Some values →
    http.CanonicalMIMEHeaderKey name = name ∧ values ≠ [].

(** The headers a request for [r] goes out with when none is lost and
    none is added: those of [r], with [X-Forwarded-For] set to the
    address of the client when there is one. *)
Definition forwarded (r : http.Request) : http.Header :=
  if bool_decide (http.RemoteAddr r = "") then http.ReqHeader r
  else <["X-Forwarded-For" := [http.RemoteAddr r]]> (http.ReqHeader r).

(** ** The settings of [main] *)

(** The file [main] loads: [CONFIG_FILE] counts while the [-config] flag
    holds its default. *)
Definition config_path (flags : MappingProxy.Flags) (Getenv : string → string) : string :=
  if bool_decide (MappingProxy.configFile flags = "config.yaml")
     && negb (bool_decide (Getenv "CONFIG_FILE" = ""))
  then Getenv "CONFIG_FILE" else MappingProxy.configFile flags.

(** The port [main] listens on: the [-port] flag, then [PORT], then 8080. *)
Definition listen_port (flags : MappingProxy.Flags) (Getenv : string → string) : string :=
  if negb (bool_decide (MappingProxy.port flags = "")) then MappingProxy.port flags
  else if negb (bool_decide (Getenv "PORT" = "")) then Getenv "PORT"
  else "8080".

(** ** The configurations of the tests ([main_test.go]) *)

Definition or_default {A} (d : A) (r : result A) : A :=
  match r with Ok a => a | Err _ => d end.

(** A scripted network: the world is a table from hosts to the response
    each gives; a host that is not in the table cannot be reached. *)
#[export] Instance scripted : Transport (list (string * http.Response)) := {|
  RoundTrip _ req sites :=
    (match list_find (fun site => bool_decide (fst site = url.Host (http.URL req))) sites with
     | Some (_, (_, resp)) => Ok resp
     | None => Err "dial tcp: no such host"
     end, sites)
|}.

Module main_test.
Import MappingProxy.

Definition watchdog : PathMapping :=
  mkPathMapping ".*/(\d+)\.x/(aarch64|armhf)/tcz/watchdog\.tcz"
                "https://github.com/releases/download/$1/watchdog-$2.zip".
Definition api_users : PathMapping :=
  mkPathMapping "/api/v(\d+)/users" "https://api.example.com/v$1/users".
Definition item : PathMapping :=
  mkPathMapping "/test/(\d+)" "https://mapped.com/item/$1".

(** The proxy [NewProxy] returns for a configuration that compiles. *)
Definition proxy_with (defaultHost : string) (mappings : list PathMapping) : Proxy :=
  or_default (mkProxy (http.mkClient 30 None) "" [] true)
             (NewProxy defaultHost mappings false).

(** The compiled form of a mapping whose pattern compiles. *)
Definition compiled (m : PathMapping) : compiledMapping :=
  mkCompiled (or_default (regexp.mkRegexp "" syntax.EmptyMatch 0) (Compile (From m))) (To m).

Definition tcz_only : PathMapping :=
  mkPathMapping "/(\w+)\.tcz$" "https://files.example.com/$1.zip".

(** [httptest.NewRequest(method, target, body)] *)
Definition request (method target : string) (body : option http.ReadCloser) : http.Request :=
  let u := or_default (url.mkURL "" "" "" "" false false "") (Parse target) in
  http.mkRequest method u ∅ body (url.Host u) "192.0.2.1:1234".

Definition response (code : nat) (header : http.Header) (body : string) : http.Response :=
  http.mkResponse code header body false.

Definition online (sites : list (string * http.Response))
  : Net (World := list (string * http.Response)) := mkNet sites [].

End main_test.

(** The mirror proxy of [TestServeHTTP_404_WithMirrorFallback], with one
    more mirror and one mirror whose URL does not parse. *)
Module failover_test.

Definition not_found (by_ : string) : http.Response :=
  main_test.response 404 {["X-Served-By" := [by_]]} (by_ +:+ " has no such file").

Definition found (by_ : string) : http.Response :=
  main_test.response 200 {["X-Served-By" := [by_]]} "found on mirror".

Definition proxy : MirrorProxy.Proxy :=
  MirrorProxy.NewProxy ["https://mirror1.com"; "://invalid"; "https://mirror2.com";
                        "https://mirror3.com"].

(** The primary and the first mirror answer 404, the second mirror has
    the file, and so has the third. *)
Definition net : Net :=
  main_test.online [("primary.com", not_found "primary"); ("mirror1.com", not_found "mirror1");
                    ("mirror2.com", found "mirror2"); ("mirror3.com", found "mirror3")].

(** Nobody has the file. *)
Definition barren : Net :=
  main_test.online [("primary.com", not_found "primary"); ("mirror1.com", not_found "mirror1");
                    ("mirror2.com", not_found "mirror2"); ("mirror3.com", not_found "mirror3")].

Definition upload : http.Request :=
  http.mkRequest "POST"
    (url.mkURL "http" "" "primary.com" "/file.txt" false false "") {["User-Agent" := ["test-agent"]]}
    (Some "payload") "primary.com" "192.0.2.1:1234".

End failover_test.

(** A scripted file system: [config.yaml] holds the configuration of the
    README, [broken.yaml] holds text that is not YAML, [badregex.yaml] a
    pattern that does not compile; there is no other file. *)
Module startup_test.

Definition readme_config : MappingProxy.Config :=
  MappingProxy.mkConfig "https://repo.example.com"
    [main_test.watchdog; MappingProxy.mkPathMapping "/api/v(\d+)/(.+)" "https://api.example.com/v$1/$2"]
    false.

Definition bad_pattern : MappingProxy.PathMapping :=
  MappingProxy.mkPathMapping "[invalid(regex" "https://example.com".

Definition badregex_config : MappingProxy.Config :=
  MappingProxy.mkConfig "https://repo.example.com" [main_test.item; bad_pattern] true.

Definition no_env : string → string := fun _ => "".

Definition env (name value : string) (rest : string → string) : string → string :=
  fun key => if bool_decide (key = name) then value else rest key.

End startup_test.

#[export] Instance scripted_files : MappingProxy.ConfigFiles := {|
  MappingProxy.ReadFile path :=
    if bool_decide (path ∈ ["config.yaml"; "broken.yaml"; "badregex.yaml"])
    then Ok path else Err ("open " +:+ path +:+ ": no such file or directory");
  MappingProxy.Unmarshal data :=
    if bool_decide (data = "config.yaml") then Ok startup_test.readme_config
    else if bool_decide (data = "badregex.yaml") then Ok startup_test.badregex_config
    else Err "yaml: did not find expected node content"
|}.

(** * Properties *)

(** ** Strings *)

Lemma str_bytes (s : string) : str (bytes s) = s.
Proof. apply string_of_list_ascii_of_string. Qed.

Lemma bytes_str (l : list ascii) : bytes (str l) = l.
Proof. apply list_ascii_of_string_of_list_ascii. Qed.

Lemma append_assoc (a b c : string) : (a +:+ b) +:+ c = a +:+ (b +:+ c).
Proof.
  induction a as [|x a IH]; [done |].
  change (String x ((a +:+ b) +:+ c) = String x (a +:+ (b +:+ c))). by rewrite IH.
Qed.

Lemma slice_drop (s : list ascii) (i j : nat) :
  i ≤ j → slice s i j ++ drop j s = drop i s.
Proof.
  intros Hij. unfold slice.
  rewrite <- (take_drop (j - i) (drop i s)) at 2. f_equal.
  rewrite drop_drop. by replace (i + (j - i)) with j by lia.
Qed.

Lemma slice_nil (s : list ascii) (i : nat) : slice s i i = [].
Proof. unfold slice. by rewrite Nat.sub_diag. Qed.

(** ** The matcher stays inside its input *)

Module regexp_facts.
Import regexp.

Lemma follows_refl src t : in_step src t → follows src t t.
Proof. intros [? ?]. repeat split; (done || lia). Qed.

Lemma follows_trans src t1 t2 t3 :
  follows src t1 t2 → follows src t2 t3 → follows src t1 t3.
Proof.
  intros (? & ? & ?) (? & ? & ?). split; [done | split; [lia | congruence]].
Qed.

Lemma drop_cons_inv (src : list ascii) (i : nat) c cs :
  drop i src = c :: cs → drop (S i) src = cs ∧ i < length src.
Proof.
  revert i; induction src as [|x src IH]; intros [|i] Hd; simpl in *; try done.
  - simplify_eq. split; [by rewrite drop_0 | lia].
  - destruct (IH i Hd). split; [done | lia].
Qed.

Lemma consume_follows src ok t t' :
  in_step src t → t' ∈ consume ok t → follows src t t'.
Proof.
  intros [Hrest Hpos]. unfold consume.
  destruct (rest t) as [|c cs] eqn:E; [by intros ?%elem_of_nil |].
  destruct (ok c); [| by intros ?%elem_of_nil].
  intros ->%list_elem_of_singleton.
  symmetry in Hrest. apply drop_cons_inv in Hrest as [E1 E2].
  repeat split; simpl; (done || lia).
Qed.

Lemma plus_loop_follows src (step : thread → list thread) greedy :
  (∀ t t', in_step src t → t' ∈ step t → follows src t t') →
  ∀ fuel t t', in_step src t → t' ∈ plus_loop step greedy fuel t → follows src t t'.
Proof.
  intros Hstep. induction fuel as [|fuel IH]; intros t t' Ht; simpl;
    intros (t1 & Hin & H1)%list_elem_of_bind; specialize (Hstep _ _ Ht H1).
  - destruct greedy; simpl in Hin.
    + by apply list_elem_of_singleton in Hin as ->.
    + by apply list_elem_of_singleton in Hin as ->.
  - assert (t' = t1 ∨ (pos t < pos t1 ∧ t' ∈ plus_loop step greedy fuel t1)) as [->|[_ Hrec]].
    { destruct greedy.
      - apply elem_of_app in Hin as [Hin | ->%list_elem_of_singleton]; [| by left].
        case_bool_decide; [by right | by apply elem_of_nil in Hin].
      - apply elem_of_cons in Hin as [-> | Hin]; [by left |].
        case_bool_decide; [by right | by apply elem_of_nil in Hin]. }
    + done.
    + eapply follows_trans; [done |]. apply IH; [apply Hstep | done].
Qed.

Lemma run_follows src r :
  ∀ t t', in_step src t → t' ∈ run r t → follows src t t'.
Proof.
  induction r as [ | c | neg rs | | | | n r IH | g r IH | g r IH | g r IH
                 | r1 IH1 r2 IH2 | r1 IH1 r2 IH2 ]; intros t t' Ht; simpl.
  - intros ->%list_elem_of_singleton. by apply follows_refl.
  - by apply consume_follows.
  - by apply consume_follows.
  - by apply consume_follows.
  - case_bool_decide; [| by intros ?%elem_of_nil].
    intros ->%list_elem_of_singleton. by apply follows_refl.
  - destruct (rest t); [| by intros ?%elem_of_nil].
    intros ->%list_elem_of_singleton. by apply follows_refl.
  - intros (t1 & -> & H1)%list_elem_of_fmap.
    destruct (IH _ _ Ht H1) as ([? ?] & ? & ?).
    split; [by split | split; simpl; [done | ]]. by rewrite length_insert.
  - destruct g.
    + intros [Hin | ->%list_elem_of_singleton]%elem_of_app;
        [by eapply plus_loop_follows | by apply follows_refl].
    + intros [-> | Hin]%elem_of_cons;
        [by apply follows_refl | by eapply plus_loop_follows].
  - by eapply plus_loop_follows.
  - destruct g.
    + intros [Hin | ->%list_elem_of_singleton]%elem_of_app;
        [by apply IH | by apply follows_refl].
    + intros [-> | Hin]%elem_of_cons; [by apply follows_refl | by apply IH].
  - intros (t1 & Hin & H1)%list_elem_of_bind.
    eapply follows_trans; [by apply IH1 |]. apply IH2; [| done]. by apply (IH1 _ _ Ht H1).
  - intros [Hin | Hin]%elem_of_app; [by apply IH1 | by apply IH2].
Qed.

(** An expression that cannot match the empty string consumes input;
    so every round of a loop of a [supported] expression advances, and
    the test on the positions in [plus_loop] succeeds. *)
Lemma consume_advances ok t t' : t' ∈ consume ok t → pos t < pos t'.
Proof.
  unfold consume. destruct (rest t) as [|c cs]; [by intros ?%elem_of_nil |].
  destruct (ok c); [| by intros ?%elem_of_nil].
  intros ->%list_elem_of_singleton. simpl. lia.
Qed.

Lemma plus_loop_advances src (step : thread → list thread) greedy :
  (∀ t t', in_step src t → t' ∈ step t → follows src t t' ∧ pos t < pos t') →
  ∀ fuel t t', in_step src t → t' ∈ plus_loop step greedy fuel t → pos t < pos t'.
Proof.
  intros Hstep. induction fuel as [|fuel IH]; intros t t' Ht; simpl;
    intros (t1 & Hin & H1)%list_elem_of_bind; destruct (Hstep _ _ Ht H1) as [Hf Hlt].
  - destruct greedy; simpl in Hin; by apply list_elem_of_singleton in Hin as ->.
  - assert (t' = t1 ∨ t' ∈ plus_loop step greedy fuel t1) as [-> | Hrec].
    { destruct greedy.
      - apply elem_of_app in Hin as [Hin | ->%list_elem_of_singleton]; [| by left].
        case_bool_decide; [by right | by apply elem_of_nil in Hin].
      - apply elem_of_cons in Hin as [-> | Hin]; [by left |].
        case_bool_decide; [by right | by apply elem_of_nil in Hin]. }
    + done.
    + destruct Hf as (Ht1 & _ & _). specialize (IH _ _ Ht1 Hrec). lia.
Qed.

Lemma run_consumes src r :
  syntax.nullable r = false →
  ∀ t t', in_step src t → t' ∈ run r t → pos t < pos t'.
Proof.
  induction r as [ | c | neg rs | | | | n r IH | g r IH | g r IH | g r IH
                 | r1 IH1 r2 IH2 | r1 IH1 r2 IH2 ]; intros Hnull t t' Ht; simpl in *;
    try done.
  - apply consume_advances.
  - apply consume_advances.
  - apply consume_advances.
  - intros (t1 & -> & H1)%list_elem_of_fmap. simpl. by apply IH.
  - apply (plus_loop_advances src); [| done]. intros t0 t1 Ht0 Hin.
    split; [by apply (run_follows src r) | by apply IH].
  - intros (t1 & Hin & H1)%list_elem_of_bind.
    destruct (run_follows src r1 _ _ Ht H1) as (Ht1 & Hle1 & _).
    destruct (run_follows src r2 _ _ Ht1 Hin) as (_ & Hle2 & _).
    apply andb_false_iff in Hnull as [Hnull | Hnull].
    + specialize (IH1 Hnull _ _ Ht H1). lia.
    + specialize (IH2 Hnull _ _ Ht1 Hin). lia.
  - apply orb_false_iff in Hnull as [Hnull1 Hnull2].
    intros [Hin | Hin]%elem_of_app; [by apply IH1 | by apply IH2].
Qed.

(** The rounds of a repetition never run out: with as many rounds as
    there are characters left, more rounds change nothing. *)
Lemma plus_loop_fuel src (step : thread → list thread) greedy :
  (∀ t t', in_step src t → t' ∈ step t → follows src t t') →
  ∀ fuel t, in_step src t → length (rest t) ≤ fuel →
    plus_loop step greedy fuel t = plus_loop step greedy (length (rest t)) t.
Proof.
  intros Hstep. induction fuel as [fuel IH] using lt_wf_ind. intros t Ht Hfuel.
  assert (∀ t', t' ∈ step t → pos t < pos t' →
            in_step src t' ∧ length (rest t') < length (rest t)) as Hless.
  { intros t' Hin Hlt. destruct (Hstep _ _ Ht Hin) as ([Hr' ?] & _ & _).
    destruct Ht as [Hr ?]. split; [done |]. rewrite Hr, Hr', !length_drop. lia. }
  destruct fuel as [|fuel], (length (rest t)) as [|k] eqn:Hk; try lia; try done.
  - cbn [plus_loop]. apply Forall_bind_ext, Forall_forall. intros t' Hin.
    case_bool_decide as Hlt; [| done]. destruct (Hless t' Hin Hlt). lia.
  - cbn [plus_loop]. apply Forall_bind_ext, Forall_forall. intros t' Hin.
    case_bool_decide as Hlt; [| done]. destruct (Hless t' Hin Hlt) as [Ht' ?].
    rewrite (IH fuel) by (done || lia). by rewrite (IH k) by (done || lia).
Qed.

(** A match lies in the input, at or after the position the search
    started from. *)
Lemma search_bounds src r n : ∀ i a,
  i ≤ length src → search r n i (drop i src) = Some a →
  ∃ a0 a1, group a 0 = Some (a0, a1) ∧ i ≤ a0 ∧ a0 ≤ a1 ∧ a1 ≤ length src.
Proof.
  intros i. remember (length src - i) as k eqn:Hk.
  revert i Hk; induction k as [|k IH]; intros i Hk a Hi.
  - assert (drop i src = []) as -> by (apply drop_ge; lia). simpl.
    destruct (run r _) as [|t ts] eqn:E; [done |]. intros [= <-].
    assert (follows src (Thread i [] (replicate (S n) None)) t) as ([_ ?] & ? & Hlen).
    { apply (run_follows src r); [split; simpl; [symmetry; apply drop_ge |]; lia |].
      simpl. rewrite E. left. }
    simpl in *. exists i, (pos t). unfold group.
    rewrite list_lookup_insert_eq by (rewrite Hlen, length_replicate; lia).
    repeat split; lia.
  - destruct (drop i src) as [|c cs] eqn:Ed.
    { apply (f_equal length) in Ed. rewrite length_drop in Ed. simpl in Ed. lia. }
    simpl. destruct (run r _) as [|t ts] eqn:E.
    + apply drop_cons_inv in Ed as [<- ?]. intros Hs.
      destruct (IH (S i) ltac:(lia) a ltac:(lia) Hs) as (a0 & a1 & ? & ? & ? & ?).
      exists a0, a1. repeat split; (done || lia).
    + intros [= <-].
      assert (follows src (Thread i (c :: cs) (replicate (S n) None)) t) as ([_ ?] & ? & Hlen).
      { apply (run_follows src r); [split; simpl; [done | lia] |]. simpl. rewrite E. left. }
      simpl in *. exists i, (pos t). unfold group.
      rewrite list_lookup_insert_eq by (rewrite Hlen, length_replicate; lia).
      repeat split; lia.
Qed.

Lemma doExecute_bounds re src pos a :
  doExecute re src pos = Some a →
  ∃ a0 a1, group a 0 = Some (a0, a1) ∧ pos ≤ a0 ∧ a0 ≤ a1 ∧ a1 ≤ length src.
Proof.
  unfold doExecute. case_bool_decide; [| done]. by apply search_bounds.
Qed.

Lemma advance_max src q a1 : q ≤ a1 → advance src q a1 = Nat.max (q + 1) a1.
Proof. intros ?. unfold advance. repeat case_bool_decide; lia. Qed.

Lemma stitch_cons f gap a segs tail :
  stitch f ((gap, a) :: segs) tail = gap ++ f a ++ stitch f segs tail.
Proof. unfold stitch. simpl. by rewrite <- !app_assoc. Qed.

(** The loop of [replaceAll] writes out the segments of [Occurrences]
    with the replacement in the place of each match, and those segments,
    with the matches themselves, are the input. *)
Lemma replaceAll_loop_stitch re src repl : ∀ fuel last q buf,
  last ≤ q → length src < q + fuel →
  ∃ segs e,
    Occurrences re src last q segs e
    ∧ replaceAll_loop re src repl fuel last q buf = buf ++ stitch repl segs (drop e src)
    ∧ drop last src = stitch (fun a => group_text src a 0) segs (drop e src).
Proof.
  induction fuel as [|fuel IH]; intros last q buf Hlast Hfuel; simpl.
  { exists [], last. split; [constructor; lia | done]. }
  case_bool_decide as Hq.
  { exists [], last. split; [by constructor; left | done]. }
  destruct (doExecute re src q) as [a|] eqn:Ha; cycle 1.
  { exists [], last. split; [by constructor; right | done]. }
  destruct (doExecute_bounds _ _ _ _ Ha) as (a0 & a1 & Hg & H0 & H01 & H1).
  rewrite Hg.
  destruct (IH a1 (advance src q a1)
              (if replaces last a0 a1
               then (buf ++ slice src last a0) ++ repl a else buf ++ slice src last a0))
    as (segs & e & Hocc & Hloop & Hsrc).
  { rewrite advance_max by lia. lia. }
  { rewrite advance_max by lia. lia. }
  rewrite Hloop. destruct (replaces last a0 a1) eqn:Hr.
  - exists ((slice src last a0, a) :: segs), e. split; [| split].
    + eapply occ_replace; eauto; lia.
    + rewrite stitch_cons. by rewrite <- !app_assoc.
    + rewrite stitch_cons. unfold group_text at 1. rewrite Hg, <- Hsrc.
      rewrite slice_drop by lia. by rewrite slice_drop by lia.
  - unfold replaces in Hr. apply orb_false_iff in Hr as [Hr1 Hr2].
    apply bool_decide_eq_false in Hr1. assert (a0 = last ∧ a1 = last) as [-> ->] by lia.
    exists segs, e. split; [| split].
    + eapply occ_skip; eauto; [lia |].
      unfold replaces. rewrite Hr2. by rewrite bool_decide_false by lia.
    + by rewrite slice_nil, app_nil_r.
    + done.
Qed.

(** *** Templates *)

Lemma span_split (p : ascii → bool) : ∀ s a b,
  regexp.span p s = (a, b) → s = a ++ b.
Proof.
  induction s as [|c s IH]; intros a b; simpl; [by intros [= <- <-] |].
  destruct (p c); [| by intros [= <- <-]].
  destruct (regexp.span p s) as [a' b'] eqn:E. intros [= <- <-].
  simpl. f_equal. by apply IH.
Qed.

Lemma span_stop (p : ascii → bool) (l r : list ascii) :
  forallb p l = true →
  match r with [] => True | c :: _ => p c = false end →
  regexp.span p (l ++ r) = (l, r).
Proof.
  intros Hl Hr. induction l as [|c l IH]; simpl in *.
  - destruct r as [|c r]; [done |]. simpl. by rewrite Hr.
  - apply andb_true_iff in Hl as [-> Hl]. by rewrite IH.
Qed.

Lemma extract_shorter (s name rest : list ascii) (num : option nat) :
  regexp.extract s = Some (name, num, rest) → length rest < length s.
Proof.
  unfold regexp.extract. destruct s as [|c s]; [done |].
  destruct (c =? "{")%char.
  - destruct (regexp.span regexp.is_name_char s) as [nm after] eqn:E.
    apply span_split in E as ->. destruct nm as [|? ?]; [done |].
    destruct after as [|c' after]; [done |].
    destruct (decide (c' = "}"%char)) as [-> | Hc].
    + intros [= _ _ <-]. simpl. rewrite length_app. simpl. lia.
    + by destruct c' as [[] [] [] [] [] [] [] []].
  - destruct (regexp.span regexp.is_name_char (c :: s)) as [nm after] eqn:E.
    apply span_split in E. destruct nm as [|? ?]; [done |].
    intros [= _ _ <-]. rewrite E. simpl. rewrite length_app. simpl. lia.
Qed.

(** The rounds of [expand] never run out: with as many rounds as the
    template is long, more rounds change nothing. *)
Lemma expand_from_fuel (src : list ascii) (a : regexp.captures) : ∀ fuel template,
  length template ≤ fuel →
  regexp.expand_from fuel template src a
  = regexp.expand_from (length template) template src a.
Proof.
  induction fuel as [fuel IH] using lt_wf_ind. intros template Hlen.
  destruct template as [|c template]; [by destruct fuel |].
  destruct fuel as [|fuel]; [simpl in Hlen; lia |].
  cbn [length regexp.expand_from].
  destruct (regexp.span _ (c :: template)) as [before after] eqn:Hspan.
  apply span_split in Hspan. apply (f_equal length) in Hspan.
  rewrite length_app in Hspan. simpl in Hspan, Hlen.
  assert (∀ t, length t < length after →
            regexp.expand_from fuel t src a
            = regexp.expand_from (length template) t src a) as Hrec.
  { intros t Ht. rewrite (IH fuel) by lia. rewrite (IH (length template)); [done | lia | lia]. }
  destruct after as [|d after']; [done |].
  destruct after' as [|d' after''].
  { by rewrite !Hrec by (simpl; lia). }
  destruct (decide (d' = "$"%char)) as [-> | Hd'].
  { by rewrite !Hrec by (simpl; lia). }
  assert (∀ (X : Type) (x y : X),
            match d' with "$"%char => x | _ => y end = y) as Hmatch
    by (intros X x y; by destruct d' as [[] [] [] [] [] [] [] []]).
  rewrite !Hmatch.
  destruct (regexp.extract (d' :: after'')) as [[[name num] rest']|] eqn:Hex.
  - apply extract_shorter in Hex. simpl in Hex.
    destruct num; by rewrite !Hrec by (simpl; lia).
  - by rewrite !Hrec by (simpl; lia).
Qed.

(** A template with no [$] is taken as it is. *)
Lemma expand_no_reference (template src : list ascii) (a : regexp.captures) :
  forallb (fun c => negb (c =? "$")%char) template = true →
  regexp.expand template src a = template.
Proof.
  intros Hno. unfold regexp.expand. destruct template as [|c template]; [done |].
  cbn [length regexp.expand_from].
  rewrite <- (app_nil_r (c :: template)) at 1. by rewrite span_stop.
Qed.

(** [$N] stands for the text of group [N]: literal text, then [$] and a
    digit that no name character follows, expand to the literal text,
    the text the group matched, and the expansion of the rest. *)
Lemma expand_group_reference (lit rest src : list ascii) (d : ascii)
    (a : regexp.captures) :
  forallb (fun c => negb (c =? "$")%char) lit = true →
  is_digit d = true →
  match rest with [] => True | c :: _ => regexp.is_name_char c = false end →
  regexp.expand (lit ++ "$"%char :: d :: rest) src a
  = lit ++ regexp.group_text src a (N.to_nat (N_of_ascii d - 48))
        ++ regexp.expand rest src a.
Proof.
  intros Hlit Hd Hrest. unfold regexp.expand.
  rewrite length_app. cbn [length]. rewrite Nat.add_succ_r.
  cbn [regexp.expand_from]. rewrite span_stop by done.
  assert (∀ (X : Type) (x y : X),
            match d with "$"%char => x | _ => y end = y) as Hmatch.
  { intros X x y. destruct d as [[] [] [] [] [] [] [] []]; try done. }
  rewrite Hmatch.
  assert (regexp.extract (d :: rest)
          = Some ([d], Some (N.to_nat (N_of_ascii d - 48)), rest)) as ->.
  { unfold regexp.extract.
    assert ((d =? "{")%char = false) as ->
      by (destruct d as [[] [] [] [] [] [] [] []]; done).
    change (d :: rest) with ([d] ++ rest). rewrite span_stop; [| | done].
    - unfold regexp.name_num. cbn [regexp.parse_num]. rewrite Hd. simpl.
      by destruct d as [[] [] [] [] [] [] [] []].
    - simpl. unfold regexp.is_name_char, is_alnum. by rewrite Hd. }
  rewrite expand_from_fuel by lia. done.
Qed.

(** [expand] does what the specification says of a template made of
    literal text and references [$N]. *)
Lemma expand_substituted (src : list ascii) (a : regexp.captures)
    (template out : list ascii) :
  regexp.Substituted src a template out → regexp.expand template src a = out.
Proof.
  induction 1 as [template Htext | lit d rest out Hlit Hd Hrest _ IH].
  - by apply expand_no_reference.
  - rewrite expand_group_reference by done. by rewrite IH.
Qed.

End regexp_facts.

(** ** The mapping proxy: construction and lookup *)

Section MappingLookup.
Context {Regexp : Type} `{!RegexpLib Regexp}.
Import MappingProxy.

Lemma compile_mappings_bad mappings : ∀ compiled,
  (∃ m, m ∈ mappings ∧ is_Ok (Compile (From m)) = false) →
  ∃ err, compile_mappings mappings compiled = Err err.
Proof.
  induction mappings as [|m0 mappings IH]; intros compiled (m & Hin & Hbad).
  - by apply elem_of_nil in Hin.
  - simpl. destruct (Compile (From m0)) as [re|err] eqn:E; [| by eexists].
    apply IH. exists m. split; [| done].
    apply elem_of_cons in Hin as [-> | Hin]; [| done]. by rewrite E in Hbad.
Qed.

Lemma compile_mappings_ok mappings : ∀ compiled compiled',
  compile_mappings mappings compiled = Ok compiled' →
  ∃ new, compiled' = compiled ++ new
    ∧ Forall2 (fun m c => Compile (From m) = Ok (regex c) ∧ to c = To m) mappings new.
Proof.
  induction mappings as [|m0 mappings IH]; intros compiled compiled'; simpl.
  - intros [= <-]. exists []. by rewrite app_nil_r.
  - destruct (Compile (From m0)) as [re|err] eqn:E; [| done].
    intros (new & -> & Hall)%IH. exists (mkCompiled re (To m0) :: new).
    split; [by rewrite <- app_assoc | by constructor].
Qed.

(** C8. A mapping list with a pattern that does not compile yields no
    proxy: [NewProxy] returns an error; and a proxy that [NewProxy] does
    return holds, in the configured order, the compiled form of every
    pattern, so that serving a request compiles nothing. *)
Theorem NewProxy_rejects_invalid_pattern
    (defaultHost : string) (mappings : list PathMapping) (followRedirects : bool) :
  ((∃ m, m ∈ mappings ∧ is_Ok (Compile (From m)) = false) →
   ∃ err, NewProxy defaultHost mappings followRedirects = Err err)
  ∧ (∀ p, NewProxy defaultHost mappings followRedirects = Ok p →
       Forall2 (fun m c => Compile (From m) = Ok (regex c) ∧ to c = To m)
               mappings (compiledMappings p)).
Proof.
  unfold NewProxy. split.
  - intros Hbad. destruct (compile_mappings_bad mappings [] Hbad) as [err ->]. by eexists.
  - intros p. destruct (compile_mappings mappings []) as [compiled|err] eqn:E; [| done].
    intros [= <-]. simpl. by apply compile_mappings_ok in E as (new & -> & Hall).
Qed.

(** The first mapping that matches decides, whatever follows it. *)
Lemma find_in_first pre m post path :
  (∀ m', m' ∈ pre → MatchString (regex m') path = false) →
  MatchString (regex m) path = true →
  find_in (pre ++ m :: post) path = (ReplaceAllString (regex m) path (to m), true).
Proof.
  induction pre as [|m0 pre IH]; intros Hpre Hm; simpl.
  - by rewrite Hm.
  - rewrite (Hpre m0) by left. apply IH; [| done]. intros m' ?. apply Hpre. by right.
Qed.

Lemma find_in_none mappings path :
  (∀ m, m ∈ mappings → MatchString (regex m) path = false) →
  find_in mappings path = ("", false).
Proof.
  induction mappings as [|m0 mappings IH]; intros Hall; simpl; [done |].
  rewrite (Hall m0) by left. apply IH. intros m ?. apply Hall. by right.
Qed.

Lemma find_in_found mappings path mapped :
  find_in mappings path = (mapped, true) →
  ∃ pre m post, mappings = pre ++ m :: post
    ∧ (∀ m', m' ∈ pre → MatchString (regex m') path = false)
    ∧ MatchString (regex m) path = true
    ∧ mapped = ReplaceAllString (regex m) path (to m).
Proof.
  induction mappings as [|m0 mappings IH]; simpl; [done |].
  destruct (MatchString (regex m0) path) eqn:E.
  - intros [= <-]. exists [], m0, mappings. split; [done |].
    split; [by intros ? ?%elem_of_nil | done].
  - intros (pre & m & post & -> & Hpre & Hm & ->)%IH.
    exists (m0 :: pre), m, post. split; [done |]. split; [| done].
    intros m' [-> | ?]%elem_of_cons; [done | by apply Hpre].
Qed.

End MappingLookup.

(** ** The mapping proxy on Go's [regexp] *)

Section MappingRegexp.
Import MappingProxy regexp_facts.

(** A search succeeds exactly when the pattern matches at some position
    from which the search may start. *)
Lemma search_anywhere src r n : ∀ i,
  i ≤ length src →
  is_Some (regexp.search r n i (drop i src)) ↔
  ∃ j, i ≤ j ∧ j ≤ length src
    ∧ regexp.run r (regexp.Thread j (drop j src) (replicate (S n) None)) ≠ [].
Proof.
  intros i. remember (length src - i) as k eqn:Hk.
  revert i Hk; induction k as [|k IH]; intros i Hk Hi.
  - assert (drop i src = []) as Hd by (apply drop_ge; lia). rewrite Hd.
    unfold regexp.search. destruct (regexp.run r (regexp.Thread i [] _)) as [|t ts] eqn:E.
    + split; [by intros [? ?] |]. intros (j & ? & ? & Hj).
      assert (j = i) as -> by lia. by rewrite Hd, E in Hj.
    + split; [| by eexists]. intros _. exists i. by rewrite Hd, E.
  - destruct (drop i src) as [|c cs] eqn:Ed.
    { apply (f_equal length) in Ed. rewrite length_drop in Ed. simpl in Ed. lia. }
    pose proof Ed as Ed'. apply drop_cons_inv in Ed' as [Ed' ?].
    cbn [regexp.search].
    destruct (regexp.run r (regexp.Thread i (c :: cs) _)) as [|t ts] eqn:E.
    + rewrite <- Ed', IH by lia. split.
      * intros (j & ? & ? & ?). exists j. repeat split; (done || lia).
      * intros (j & ? & ? & Hj). exists j.
        destruct (decide (j = i)) as [-> | ?]; [by rewrite Ed, E in Hj |].
        repeat split; (done || lia).
    + split; [| by eexists]. intros _. exists i. by rewrite Ed, E.
Qed.

(** Patterns are not anchored: [MatchString] holds when the pattern
    matches anywhere in the string. *)
Lemma MatchString_anywhere (re : regexp.Regexp) (s : string) :
  MatchString re s = true ↔ regexp.matches_somewhere re s.
Proof.
  cbn. unfold regexp.MatchString, regexp.doExecute, regexp.matches_somewhere,
    regexp.matches_at.
  rewrite bool_decide_eq_true, bool_decide_true by lia.
  rewrite (search_anywhere (bytes s) _ _ 0) by lia. split.
  - intros (j & ? & ? & ?). by exists j.
  - intros (j & ? & ?). exists j. repeat split; (done || lia).
Qed.



(** A pattern that occurs twice is replaced twice, and the text around
    the occurrences stays. *)
Example findMapping_two_occurrences :
  findMapping (main_test.proxy_with "" [main_test.item]) "/a/test/1/b/test/22/c"
  = ("/ahttps://mapped.com/item/1/bhttps://mapped.com/item/22/c", true).
Proof. vm_compute. reflexivity. Qed.

(** Once a match has reached the end of a non-empty input, the loop adds
    nothing more. *)
Lemma replaceAll_loop_at_end (re : regexp.Regexp) (src : list ascii)
    (repl : regexp.captures → list ascii) : ∀ fuel q buf,
  0 < length src → length src ≤ q →
  regexp.replaceAll_loop re src repl fuel (length src) q buf = buf.
Proof.
  induction fuel as [|fuel IH]; intros q buf Hsrc Hq; cbn [regexp.replaceAll_loop].
  { by rewrite drop_all, app_nil_r. }
  case_bool_decide; [by rewrite drop_all, app_nil_r |].
  destruct (regexp.doExecute re src q) as [a|] eqn:Ha; [| by rewrite drop_all, app_nil_r].
  destruct (doExecute_bounds _ _ _ _ Ha) as (a0 & a1 & Hg & ? & ? & ?).
  rewrite Hg. assert (a0 = length src ∧ a1 = length src) as [-> ->] by lia.
  rewrite slice_nil, app_nil_r. unfold regexp.replaces.
  rewrite !bool_decide_false by lia. cbn [orb].
  apply IH; [done |]. rewrite advance_max by lia. lia.
Qed.

(** A match that covers the whole input is replaced by the replacement
    alone. *)
Lemma replaceAll_whole (re : regexp.Regexp) (src : list ascii)
    (repl : regexp.captures → list ascii) (a : regexp.captures) :
  regexp.doExecute re src 0 = Some a →
  regexp.group a 0 = Some (0, length src) →
  regexp.replaceAll re src repl = repl a.
Proof.
  intros Ha Hg. unfold regexp.replaceAll. cbn [regexp.replaceAll_loop].
  rewrite bool_decide_false, Ha, Hg by lia.
  unfold regexp.replaces. rewrite (bool_decide_true (0 = 0)), orb_true_r by done.
  rewrite slice_nil. cbn [app].
  destruct (decide (length src = 0)) as [Hlen | Hlen].
  - rewrite Hlen. cbn [regexp.replaceAll_loop].
    apply length_zero_iff_nil in Hlen as ->. by rewrite app_nil_r.
  - apply replaceAll_loop_at_end; [lia |]. rewrite advance_max by lia. lia.
Qed.




End MappingRegexp.

(** ** The mapping proxy: target resolution *)

Section MappingTarget.
Context {Regexp : Type} `{!RegexpLib Regexp} `{UrlLib} {World : Type} `{!Transport World}.
Import MappingProxy.

Lemma originalPath_eq (r : http.Request) :
  originalPath r
  = if bool_decide (url.RawQuery (http.URL r) = "") then url.Path (http.URL r)
    else url.Path (http.URL r) +:+ "?" +:+ url.RawQuery (http.URL r).
Proof. unfold originalPath. by case_bool_decide. Qed.


End MappingTarget.

Section MappingTargetRegexp.
Context `{UrlLib}.
Import MappingProxy.



End MappingTargetRegexp.



(** C8, at [TestNewProxy_InvalidRegex]. *)
Lemma NewProxy_rejects_invalid_pattern_witness :
  ∃ err, MappingProxy.NewProxy "https://default.com"
           [MappingProxy.mkPathMapping "[invalid(regex" "https://example.com"] false
         = Err (A := MappingProxy.Proxy (Regexp := regexp.Regexp)) err.
Proof.
  apply (proj1 (NewProxy_rejects_invalid_pattern "https://default.com"
                  [MappingProxy.mkPathMapping "[invalid(regex" "https://example.com"] false)).
  exists (MappingProxy.mkPathMapping "[invalid(regex" "https://example.com").
  split; [left | vm_compute; reflexivity].
Defined.

(** ** Headers *)

Section Headers.
Context `{UrlLib} {World : Type} `{!Transport World}.

Lemma canonical_char_idem upper c :
  http.canonical_char upper (http.canonical_char upper c) = http.canonical_char upper c.
Proof. destruct upper, c as [[] [] [] [] [] [] [] []]; vm_compute; reflexivity. Qed.

Lemma canonical_char_token upper c :
  http.is_token (http.canonical_char upper c) = http.is_token c.
Proof. destruct upper, c as [[] [] [] [] [] [] [] []]; vm_compute; reflexivity. Qed.

Lemma canonical_case_idem s : ∀ upper,
  http.canonical_case upper (http.canonical_case upper s) = http.canonical_case upper s.
Proof.
  induction s as [|c s IH]; intros upper; simpl; [done |].
  rewrite canonical_char_idem. f_equal. apply IH.
Qed.

Lemma canonical_case_token s : ∀ upper,
  forallb http.is_token (http.canonical_case upper s) = forallb http.is_token s.
Proof.
  induction s as [|c s IH]; intros upper; simpl; [done |].
  by rewrite canonical_char_token, IH.
Qed.

(** A canonical name is its own canonical form: the names of the header
    maps that [net/http] builds go through [Add] as they are. *)
Lemma CanonicalMIMEHeaderKey_idem name :
  http.CanonicalMIMEHeaderKey (http.CanonicalMIMEHeaderKey name)
  = http.CanonicalMIMEHeaderKey name.
Proof.
  unfold http.CanonicalMIMEHeaderKey.
  destruct (forallb http.is_token (bytes name)) eqn:E; [| by rewrite E].
  by rewrite bytes_str, canonical_case_token, E, canonical_case_idem.
Qed.

Lemma Add_has_pair (h : http.Header) key value :
  http.has_pair (http.Add key value h) (http.CanonicalMIMEHeaderKey key) value.
Proof.
  unfold http.Add, http.has_pair. eexists. rewrite lookup_insert_eq. split; [done |].
  apply elem_of_app. right. left.
Qed.

Lemma Add_keeps_pair (h : http.Header) key value name x :
  http.has_pair h name x → http.has_pair (http.Add key value h) name x.
Proof.
  intros (values & Hl & Hin). unfold http.Add, http.has_pair.
  destruct (decide (http.CanonicalMIMEHeaderKey key = name)) as [<- | Hne].
  - eexists. rewrite lookup_insert_eq. split; [done |]. rewrite Hl. simpl.
    apply elem_of_app. by left.
  - exists values. by rewrite lookup_insert_ne.
Qed.

Lemma add_values_keeps_pair name values : ∀ (dst : http.Header) n x,
  http.has_pair dst n x → http.has_pair (add_values name values dst) n x.
Proof.
  unfold add_values. induction values as [|v values IH]; intros dst n x Hp; simpl; [done |].
  apply IH. by apply Add_keeps_pair.
Qed.

Lemma add_values_has_pair name values value : ∀ (dst : http.Header),
  value ∈ values →
  http.has_pair (add_values name values dst) (http.CanonicalMIMEHeaderKey name) value.
Proof.
  induction values as [|v values IH]; intros dst Hin; [by apply elem_of_nil in Hin |].
  apply elem_of_cons in Hin as [-> | Hin].
  - apply (add_values_keeps_pair name values (http.Add name v dst)). apply Add_has_pair.
  - apply (IH (http.Add name v dst) Hin).
Qed.

Lemma add_entries_keeps_pair entries : ∀ (dst : http.Header) n x,
  http.has_pair dst n x → http.has_pair (add_entries entries dst) n x.
Proof.
  unfold add_entries. induction entries as [|e entries IH]; intros dst n x Hp; simpl; [done |].
  apply IH. by apply add_values_keeps_pair.
Qed.

(** Whatever the order in which the entries are visited, every value of
    every entry is added. *)
Lemma add_entries_has_pair entries name values value : ∀ (dst : http.Header),
  (name, values) ∈ entries → value ∈ values →
  http.has_pair (add_entries entries dst) (http.CanonicalMIMEHeaderKey name) value.
Proof.
  induction entries as [|e entries IH]; intros dst Hin Hv; [by apply elem_of_nil in Hin |].
  apply elem_of_cons in Hin as [<- | Hin].
  - apply (add_entries_keeps_pair entries). by apply add_values_has_pair.
  - by apply (IH _ Hin).
Qed.

Lemma copy_header_has_pair (src dst : http.Header) name value :
  http.has_pair src name value →
  http.has_pair (copy_header src dst) (http.CanonicalMIMEHeaderKey name) value.
Proof.
  intros (values & Hl & Hin). unfold copy_header.
  apply (add_entries_has_pair _ name values); [| done]. by apply elem_of_map_to_list.
Qed.

Lemma canonical_forwarded_for :
  http.CanonicalMIMEHeaderKey "X-Forwarded-For" = "X-Forwarded-For".
Proof. vm_compute. reflexivity. Qed.

Lemma forward_headers_carries (r proxyReq : http.Request) :
  carries_headers r (forward_headers r proxyReq).
Proof.
  unfold carries_headers, forward_headers. simpl. split.
  - intros name value Hp Hx.
    pose proof (copy_header_has_pair _ (http.ReqHeader proxyReq) _ _ Hp) as (values & Hl & Hin).
    case_bool_decide as Haddr; simpl.
    + by exists values.
    + destruct Hx as [Hx | Hx]; [| done]. exists values. split; [| done].
      unfold http.Set_. rewrite canonical_forwarded_for. by rewrite lookup_insert_ne.
  - intros Haddr. rewrite bool_decide_false by done. simpl.
    unfold http.Set_. rewrite canonical_forwarded_for. by rewrite lookup_insert_eq.
Qed.

(** A pair whose name is in canonical form goes out under that very
    name. *)
Lemma carries_headers_verbatim (r req : http.Request) name value :
  carries_headers r req →
  http.has_pair (http.ReqHeader r) name value →
  http.CanonicalMIMEHeaderKey name = name →
  name ≠ "X-Forwarded-For" ∨ http.RemoteAddr r = "" →
  http.has_pair (http.ReqHeader req) name value.
Proof.
  intros [Hpairs _] Hp Hcanon Hx. rewrite <- Hcanon. apply Hpairs; [done |].
  by rewrite Hcanon.
Qed.

Lemma canonical_header_singleton (name : string) (values : list string) :
  http.CanonicalMIMEHeaderKey name = name → values ≠ [] →
  canonical_header {[name := values]}.
Proof. intros Hname Hvalues name' values' [<- <-]%lookup_singleton_Some. by split. Qed.

Lemma canonical_header_name (h : http.Header) name value :
  canonical_header h → http.has_pair h name value →
  http.CanonicalMIMEHeaderKey name = name.
Proof. intros Hcanon (values & Hl & _). by destruct (Hcanon _ _ Hl). Qed.

Lemma final_status_checked (code : nat) :
  200 ≤ code ≤ 999 → http.checkWriteHeaderCode code = true.
Proof.
  intros [? ?]. unfold http.checkWriteHeaderCode.
  by rewrite !bool_decide_true by lia.
Qed.

Lemma relay_header (resp : http.Response) (w : http.ResponseWriter) :
  http.wHeader (relay resp w) = copy_header (http.RespHeader resp) (http.wHeader w).
Proof.
  unfold relay, http.Copy, http.WriteHeader, http.Write_. simpl.
  destruct (http.wCode w); simpl; [by destruct (http.Closed resp) |].
  destruct (http.checkWriteHeaderCode _); simpl; [by destruct (http.Closed resp) | done].
Qed.

Lemma relay_code (resp : http.Response) (w : http.ResponseWriter) :
  http.wCode w = None →
  http.checkWriteHeaderCode (http.StatusCode resp) = true →
  http.wCode (relay resp w) = Some (http.StatusCode resp).
Proof.
  intros Hw Hcode. unfold relay, http.Copy, http.WriteHeader, http.Write_. simpl.
  rewrite Hw, Hcode. by destruct (http.Closed resp).
Qed.

(** On a writer that has sent nothing, an open response with a status
    that [WriteHeader] accepts is written out: status and body. *)
Lemma relay_sends (resp : http.Response) (w : http.ResponseWriter) :
  http.wCode w = None → http.Closed resp = false →
  http.checkWriteHeaderCode (http.StatusCode resp) = true →
  http.wCode (relay resp w) = Some (http.StatusCode resp)
  ∧ http.wBody (relay resp w) = http.wBody w +:+ http.RespBody resp.
Proof.
  intros Hfresh Hopen Hcode. unfold relay, http.Copy, http.Write_, http.WriteHeader. simpl.
  by rewrite Hfresh, Hcode, Hopen.
Qed.

Lemma relay_returns_headers (resp : http.Response) (w : http.ResponseWriter) :
  returns_headers resp (relay resp w).
Proof. intros name value Hp. rewrite relay_header. by apply copy_header_has_pair. Qed.

Lemma NewRequest_Ok method target body req :
  NewRequest method target body = Ok req →
  http.Method req = (if bool_decide (method = "") then "GET" else method)
  ∧ http.ReqBody req = body.
Proof.
  unfold NewRequest. destruct (negb _); [done |].
  destruct (Parse target); [| done]. by intros [= <-].
Qed.

Lemma outbound_method_body (r : http.Request) body req :
  outbound r body req → http.Method req = method_sent r ∧ http.ReqBody req = body.
Proof.
  intros (target & proxyReq & Hnew & ->). by apply NewRequest_Ok in Hnew as [? ?].
Qed.

Lemma outbound_carries (r : http.Request) body req :
  outbound r body req → carries_headers r req.
Proof. intros (target & proxyReq & _ & ->). apply forward_headers_carries. Qed.

Lemma forward_headers_verbatim (r proxyReq : http.Request) :
  canonical_header (http.ReqHeader r) →
  verbatim_headers r (forward_headers r proxyReq).
Proof.
  intros Hcanon. destruct (forward_headers_carries r proxyReq) as [Hpairs Hxff].
  split; [| done]. intros name value Hp Hx.
  eapply carries_headers_verbatim; [by split | done | by eapply canonical_header_name | done].
Qed.

Lemma relay_returns_verbatim (resp : http.Response) (w : http.ResponseWriter) name value :
  canonical_header (http.RespHeader resp) →
  http.has_pair (http.RespHeader resp) name value →
  http.has_pair (http.wHeader (relay resp w)) name value.
Proof.
  intros Hcanon Hp. rewrite <- (canonical_header_name _ _ _ Hcanon Hp).
  by apply relay_returns_headers.
Qed.

End Headers.

(** ** How a target prints *)

Lemma escape_clean (s : list ascii) (mode : url.encoding) :
  forallb (fun c => negb (url.shouldEscape c mode)) s = true → url.escape s mode = s.
Proof.
  induction s as [|c s IH]; simpl; [done |].
  intros [Hc Hs]%andb_true_iff. apply negb_true_iff in Hc. rewrite Hc. f_equal. by apply IH.
Qed.

(** A URL with a scheme, a host and a path that starts with a slash, all
    of characters that need no escaping, prints as
    [scheme://host/path?query], without the [?] when there is no
    query. *)
Lemma String_scheme_host_path_query (scheme host path query : string) :
  scheme ≠ "" → host ≠ "" →
  forallb (fun c => negb (url.shouldEscape c url.encodeHost)) (bytes host) = true →
  forallb (fun c => negb (url.shouldEscape c url.encodePath)) (bytes path) = true →
  path = "" ∨ has_prefix (bytes "/") (bytes path) = true →
  url.String (url.mkURL scheme "" host path false false query)
  = scheme +:+ "://" +:+ host +:+ path
    +:+ (if bool_decide (query = "") then "" else "?" +:+ query).
Proof.
  intros Hscheme Hhost Hh Hp Hslash. unfold url.String, url.EscapedPath. simpl.
  rewrite (bool_decide_false (scheme = "")), (bool_decide_false (host = "")) by done.
  assert (bool_decide (path = "*") = false) as ->.
  { apply bool_decide_eq_false. intros ->. by destruct Hslash. }
  rewrite !escape_clean by done. rewrite !str_bytes. simpl.
  assert (match bytes path with
          | [] => ""
          | c :: _ => if negb (c =? "/")%char && true then "/" else ""
          end = "") as ->.
  { destruct Hslash as [-> | Hslash]; [done |].
    destruct (bytes path) as [|c l]; [done |].
    destruct (Ascii.eqb_spec c "/") as [-> | Hne]; [done |].
    change (has_prefix (bytes "/") (c :: l)) with (("/" =? c)%char && true) in Hslash.
    apply andb_true_iff in Hslash as [Hc%Ascii.eqb_eq _]. by destruct Hne. }
  assert (∀ x, bool_decide ((scheme +:+ ":") +:+ x = "") = false) as Hne.
  { intros x. apply bool_decide_eq_false. destruct scheme; [done |].
    cbv [String.append]. discriminate. }
  rewrite Hne. cbn [andb].
  rewrite !append_assoc. cbv [String.append]. by case_bool_decide.
Qed.

Lemma existsb_clean (mode : url.encoding) (s : list ascii) :
  existsb (fun c => url.shouldEscape c mode) s = false → clean mode s = true.
Proof.
  induction s as [|c s IH]; simpl; [done |].
  intros [-> Hs]%orb_false_iff. simpl. by apply IH.
Qed.

(** What [url.Parse] returns has a host that prints as it is; and when
    there is a host, there is no opaque part and the path, empty or
    starting with a slash, prints as it is too. *)
Lemma Parse_shape (rawURL : string) (u : url.URL) :
  url.Parse rawURL = Ok u →
  clean url.encodeHost (bytes (url.Host u)) = true
  ∧ (url.Host u ≠ "" →
     url.Opaque u = ""
     ∧ clean url.encodePath (bytes (url.Path u)) = true
     ∧ (url.Path u = "" ∨ has_prefix (bytes "/") (bytes (url.Path u)) = true)).
Proof.
  unfold url.Parse. intros Hparse.
  repeat (case_match; try discriminate); simplify_eq; cbn [url.Host url.Opaque url.Path];
    rewrite ?bytes_str.
  all: split; [first [done | by apply existsb_clean] |].
  all: intros Hne; try done.
  all: split; [done |].
  all: try change (String "/" (str ?l)) with (str ("/"%char :: l)); rewrite ?bytes_str.
  all: split; [first [done | by apply existsb_clean] |].
  all: first [by left | by right].
Qed.

Lemma String_over_host (scheme host path query : string) (omit force : bool) :
  scheme ≠ "" → host ≠ "" →
  clean url.encodeHost (bytes host) = true →
  clean url.encodePath (bytes path) = true →
  path = "" ∨ has_prefix (bytes "/") (bytes path) = true →
  url.String (url.mkURL scheme "" host path omit force query)
  = scheme +:+ "://" +:+ host +:+ path
    +:+ (if force || negb (bool_decide (query = "")) then "?" +:+ query else "").
Proof.
  intros Hscheme Hhost Hh Hp Hslash. unfold url.String, url.EscapedPath. simpl.
  rewrite (bool_decide_false (scheme = "")), (bool_decide_false (host = "")) by done.
  assert (bool_decide (path = "*") = false) as ->.
  { apply bool_decide_eq_false. intros ->. by destruct Hslash. }
  rewrite !escape_clean by done. rewrite !str_bytes, andb_false_r. simpl.
  assert (match bytes path with
          | [] => ""
          | c :: _ => if negb (c =? "/")%char && true then "/" else ""
          end = "") as ->.
  { destruct Hslash as [-> | Hslash]; [done |].
    destruct (bytes path) as [|c l]; [done |].
    destruct (Ascii.eqb_spec c "/") as [-> | Hne]; [done |].
    change (has_prefix (bytes "/") (c :: l)) with (("/" =? c)%char && true) in Hslash.
    apply andb_true_iff in Hslash as [Hc%Ascii.eqb_eq _]. by destruct Hne. }
  assert (∀ x, bool_decide ((scheme +:+ ":") +:+ x = "") = false) as Hne.
  { intros x. apply bool_decide_eq_false. destruct scheme; [done |].
    cbv [String.append]. discriminate. }
  rewrite Hne, andb_false_r. cbn [andb].
  rewrite !append_assoc. by cbv [String.append].
Qed.

Section DefaultHost.
Context {Regexp : Type} `{!RegexpLib Regexp}.
Import MappingProxy.


End DefaultHost.


(** ** The tests of the repository *)

Example TestNewProxy :
  length (MappingProxy.compiledMappings
            (main_test.proxy_with "https://default.com" [main_test.item])) = 1.
Proof. vm_compute. reflexivity. Qed.

Example TestNewProxy_InvalidRegex :
  match MappingProxy.NewProxy (Regexp := regexp.Regexp) "https://default.com"
          [MappingProxy.mkPathMapping "[invalid(regex" "https://example.com"] false with
  | Ok _ => False
  | Err err => Contains err "invalid regex pattern" = true
  end.
Proof. vm_compute. reflexivity. Qed.

Example TestFindMapping :
  let proxy := main_test.proxy_with "https://default.com"
                 [main_test.watchdog; main_test.api_users] in
  MappingProxy.findMapping proxy "/repo/14.x/aarch64/tcz/watchdog.tcz"
  = ("https://github.com/releases/download/14/watchdog-aarch64.zip", true)
  ∧ MappingProxy.findMapping proxy "/mirror/15.x/armhf/tcz/watchdog.tcz"
    = ("https://github.com/releases/download/15/watchdog-armhf.zip", true)
  ∧ MappingProxy.findMapping proxy "/api/v2/users"
    = ("https://api.example.com/v2/users", true)
  ∧ MappingProxy.findMapping proxy "/some/other/path" = ("", false).
Proof. vm_compute. done. Qed.

Example TestBuildTargetURL_WithMapping :
  MappingProxy.buildTargetURL
    (main_test.proxy_with "https://default.com" [main_test.item])
    (main_test.request "GET" "http://localhost/test/123" None)
  = Ok "https://mapped.com/item/123".
Proof. vm_compute. reflexivity. Qed.

Example TestReplaceHost :
  let proxy := MirrorProxy.NewProxy [] in
  MirrorProxy.replaceHost proxy "http://example.com/path/to/file" "https://mirror.com"
  = Ok "https://mirror.com/path/to/file"
  ∧ MirrorProxy.replaceHost proxy "http://example.com/path?query=value" "https://mirror.com"
    = Ok "https://mirror.com/path?query=value"
  ∧ MirrorProxy.replaceHost proxy "https://secure.com/file" "http://mirror.com"
    = Ok "http://mirror.com/file"
  ∧ is_Ok (MirrorProxy.replaceHost proxy "://invalid" "https://mirror.com") = false
  ∧ is_Ok (MirrorProxy.replaceHost proxy "https://example.com/path" "://invalid") = false.
Proof. vm_compute. done. Qed.

Example TestServeHTTP_WithPathMapping :
  let (w, n) := MappingProxy.ServeHTTP
                  (main_test.proxy_with "https://default.com"
                     [MappingProxy.mkPathMapping "/test/(\d+)" "http://backend.test/mapped/$1"])
                  http.NewRecorder
                  (main_test.request "GET" "http://localhost/test/456" None)
                  (main_test.online [("backend.test", main_test.response 200 ∅ "mapped content")]) in
  http.wCode w = Some 200
  ∧ http.wBody w = "mapped content"
  ∧ (fun req => url.Path (http.URL req)) <$> sent n = ["/mapped/456"].
Proof. vm_compute. done. Qed.

Example TestServeHTTP_404_NoMirrors :
  http.wCode (fst (MirrorProxy.ServeHTTP (MirrorProxy.NewProxy []) http.NewRecorder
                     failover_test.upload failover_test.barren))
  = Some 404.
Proof. vm_compute. reflexivity. Qed.

(** ** What the handlers send *)

Section Sent.
Context {Regexp : Type} `{!RegexpLib Regexp} `{UrlLib} {World : Type} `{!Transport World}.

(** The mapping proxy sends at most one request: the one it built for
    the resolved target with the body of [r]; the answer to it, if there
    is one, is what it relays. *)
Lemma mapping_ServeHTTP_sent (p : MappingProxy.Proxy) w r n w' n' :
  MappingProxy.ServeHTTP p w r n = (w', n') →
  n' = n
  ∨ ∃ req res world',
      outbound r (http.ReqBody r) req
      ∧ RoundTrip (MappingProxy.client p) req (world n) = (res, world')
      ∧ n' = mkNet world' (sent n ++ [req])
      ∧ ∀ resp, res = Ok resp → w' = relay resp w.
Proof.
  unfold MappingProxy.ServeHTTP.
  destruct (MappingProxy.buildTargetURL p r) as [targetURL|err]; [| intros [= <- <-]; by left].
  destruct (NewRequest _ targetURL _) as [proxyReq|err] eqn:Hnew;
    [| intros [= <- <-]; by left].
  unfold Do.
  destruct (RoundTrip _ (forward_headers r proxyReq) (world n)) as [res world'] eqn:Hrt.
  intros Hserve. right. exists (forward_headers r proxyReq), res, world'.
  split; [by exists targetURL, proxyReq |]. split; [done |].
  destruct res as [resp|err]; injection Hserve as <- <-; split; try done.
  by intros resp' [= <-].
Qed.

Lemma tryRequest_sent (p : MirrorProxy.Proxy) target r n res n' :
  MirrorProxy.tryRequest p target r n = (res, n') →
  sent n' = sent n ++ MirrorProxy.requests_to r [target]
  ∧ Forall (outbound r None) (MirrorProxy.requests_to r [target]).
Proof.
  unfold MirrorProxy.tryRequest, MirrorProxy.requests_to. simpl.
  destruct (NewRequest _ target None) as [proxyReq|err] eqn:Hnew.
  - unfold Do. destruct (RoundTrip _ _ _) as [res' world']. intros [= <- <-]. simpl.
    split; [done |]. repeat constructor. by exists target, proxyReq.
  - intros [= <- <-]. simpl. by rewrite !app_nil_r.
Qed.

Lemma requests_to_app r urls1 urls2 :
  MirrorProxy.requests_to r (urls1 ++ urls2)
  = MirrorProxy.requests_to r urls1 ++ MirrorProxy.requests_to r urls2.
Proof. unfold MirrorProxy.requests_to. apply bind_app. Qed.

Lemma rewrites_app (p : MirrorProxy.Proxy) target ms1 ms2 :
  MirrorProxy.rewrites p target (ms1 ++ ms2)
  = MirrorProxy.rewrites p target ms1 ++ MirrorProxy.rewrites p target ms2.
Proof. unfold MirrorProxy.rewrites. apply omap_app. Qed.

(** One attempt sends what [tryRequest] sends to the rewritten URL, if
    there is one. *)
Lemma attempt_sent (p : MirrorProxy.Proxy) target r mirror n o n' :
  MirrorProxy.attempt p target r mirror n = (o, n') →
  sent n' = sent n ++ MirrorProxy.requests_to r (MirrorProxy.rewrites p target [mirror]).
Proof.
  unfold MirrorProxy.attempt, MirrorProxy.rewrites. simpl.
  destruct (MirrorProxy.replaceHost p target mirror) as [mirrorURL|err]; simpl.
  - destruct (MirrorProxy.tryRequest p mirrorURL r n) as [res n1] eqn:Htry.
    apply tryRequest_sent in Htry as [Htry _].
    destruct res as [resp|err]; [case_bool_decide |]; by intros [= <- <-].
  - intros [= <- <-]. by rewrite app_nil_r.
Qed.

(** The loop steps over a mirror that is skipped or answers 404 ... *)
Lemma try_mirrors_miss (p : MirrorProxy.Proxy) target r mirror mirrors resp n o n' :
  MirrorProxy.attempt p target r mirror n = (o, n') →
  (∀ resp', o ≠ MirrorProxy.Answered resp') →
  MirrorProxy.try_mirrors p target r (mirror :: mirrors) resp n
  = MirrorProxy.try_mirrors p target r mirrors resp n'.
Proof.
  unfold MirrorProxy.attempt. simpl.
  destruct (MirrorProxy.replaceHost p target mirror) as [mirrorURL|err];
    [| by intros [= <- <-]].
  destruct (MirrorProxy.tryRequest p mirrorURL r n) as [[mirrorResp|err] n1];
    [| by intros [= <- <-]].
  case_bool_decide; simpl; intros [= <- <-] Ho; [done |]. by destruct (Ho mirrorResp).
Qed.

(** ... and stops at the first mirror that answers with something else. *)
Lemma try_mirrors_answered (p : MirrorProxy.Proxy) target r mirror mirrors resp n resp' n' :
  MirrorProxy.attempt p target r mirror n = (MirrorProxy.Answered resp', n') →
  MirrorProxy.try_mirrors p target r (mirror :: mirrors) resp n = (resp', n')
  ∧ http.StatusCode resp' ≠ http.StatusNotFound.
Proof.
  unfold MirrorProxy.attempt. simpl.
  destruct (MirrorProxy.replaceHost p target mirror) as [mirrorURL|err]; [| done].
  destruct (MirrorProxy.tryRequest p mirrorURL r n) as [[mirrorResp|err] n1]; [| done].
  case_bool_decide; simpl; [done |]. by intros [= <- <-].
Qed.

Lemma all_miss_steps (p : MirrorProxy.Proxy) target r pre : ∀ n n',
  MirrorProxy.all_miss p target r pre n = Some n' →
  sent n' = sent n ++ MirrorProxy.requests_to r (MirrorProxy.rewrites p target pre)
  ∧ ∀ rest resp,
      MirrorProxy.try_mirrors p target r (pre ++ rest) resp n
      = MirrorProxy.try_mirrors p target r rest resp n'.
Proof.
  induction pre as [|mirror pre IH]; intros n n'; cbn [MirrorProxy.all_miss].
  - intros [= <-]. split; [by rewrite app_nil_r | done].
  - destruct (MirrorProxy.attempt p target r mirror n) as [o n1] eqn:Hatt.
    intros Hmiss.
    assert (MirrorProxy.all_miss p target r pre n1 = Some n'
            ∧ ∀ resp', o ≠ MirrorProxy.Answered resp') as [Hrest Ho]
      by (by destruct o).
    destruct (IH _ _ Hrest) as [Hsent Hloop]. split.
    + change (mirror :: pre) with ([mirror] ++ pre).
      rewrite rewrites_app, requests_to_app, Hsent, (attempt_sent _ _ _ _ _ _ _ Hatt).
      by rewrite app_assoc.
    + intros rest resp.
      change ((mirror :: pre) ++ rest) with (mirror :: (pre ++ rest)).
      rewrite (try_mirrors_miss _ _ _ _ _ _ _ _ _ Hatt Ho). apply Hloop.
Qed.

(** Everything the loop sends is sent by [tryRequest]. *)
Lemma try_mirrors_sent (p : MirrorProxy.Proxy) target r mirrors : ∀ resp n resp' n',
  MirrorProxy.try_mirrors p target r mirrors resp n = (resp', n') →
  ∃ new, sent n' = sent n ++ new ∧ Forall (outbound r None) new.
Proof.
  induction mirrors as [|mirror mirrors IH]; intros resp n resp' n'; simpl.
  - intros [= <- <-]. exists []. by rewrite app_nil_r.
  - destruct (MirrorProxy.replaceHost p target mirror) as [mirrorURL|err]; [| apply IH].
    destruct (MirrorProxy.tryRequest p mirrorURL r n) as [res n1] eqn:Htry.
    apply tryRequest_sent in Htry as [Hsent Hout].
    assert (∀ resp1 n2, MirrorProxy.try_mirrors p target r mirrors resp n1 = (resp1, n2) →
              ∃ new, sent n2 = sent n ++ new ∧ Forall (outbound r None) new) as Hnext.
    { intros resp1 n2 (new & Hs & Hf)%IH. eexists. rewrite Hs, Hsent, <- app_assoc.
      split; [done |]. by apply Forall_app. }
    destruct res as [mirrorResp|err]; [| apply Hnext].
    case_bool_decide; simpl; [apply Hnext |]. intros [= <- <-]. by eexists.
Qed.

Lemma mirror_ServeHTTP_sent (p : MirrorProxy.Proxy) w r n w' n' :
  MirrorProxy.ServeHTTP p w r n = (w', n') →
  ∃ new, sent n' = sent n ++ new ∧ Forall (outbound r None) new.
Proof.
  unfold MirrorProxy.ServeHTTP.
  destruct (MirrorProxy.tryRequest p _ r n) as [res n1] eqn:Htry.
  apply tryRequest_sent in Htry as [Hsent Hout].
  destruct res as [resp|err]; [| intros [= <- <-]; by eexists].
  destruct (_ && _).
  - destruct (MirrorProxy.try_mirrors _ _ _ _ _ _) as [resp1 n2] eqn:Hloop.
    apply try_mirrors_sent in Hloop as (new & Hs & Hf). intros [= <- <-].
    eexists. rewrite Hs, Hsent, <- app_assoc. split; [done |]. by apply Forall_app.
  - intros [= <- <-]. by eexists.
Qed.

(** C3, amended.  The mapping proxy builds its outbound request with the
    method and the body stream of the inbound request.  The mirror proxy
    builds every attempt, against the primary target and against each
    mirror, with the method of the inbound request and no body.  (An
    empty method goes out as GET.) *)
Theorem outbound_method_and_body :
  (∀ (p : MappingProxy.Proxy) w r n w' n',
     MappingProxy.ServeHTTP p w r n = (w', n') →
     ∃ new, sent n' = sent n ++ new
       ∧ ∀ req, req ∈ new →
           http.Method req = method_sent r ∧ http.ReqBody req = http.ReqBody r)
  ∧ (∀ (p : MirrorProxy.Proxy) w r n w' n',
       MirrorProxy.ServeHTTP p w r n = (w', n') →
       ∃ new, sent n' = sent n ++ new
         ∧ ∀ req, req ∈ new →
             http.Method req = method_sent r ∧ http.ReqBody req = None).
Proof.
  split.
  - intros p w r n w' n' [-> | (req & res & world' & Hout & _ & -> & _)]%mapping_ServeHTTP_sent.
    + exists []. split; [by rewrite app_nil_r | by intros ? ?%elem_of_nil].
    + exists [req]. split; [done |]. intros ? ->%list_elem_of_singleton.
      by apply outbound_method_body.
  - intros p w r n w' n' (new & Hs & Hf)%mirror_ServeHTTP_sent.
    exists new. split; [done |]. intros req Hin. rewrite Forall_forall in Hf.
    by apply outbound_method_body, Hf.
Qed.

(** C9. For a request whose header map is as [net/http] builds it: when
    the mapping proxy resolves a target, [http.NewRequest] accepts it and
    the upstream answers, one request has gone out, it has every header
    pair of the inbound request verbatim, with [X-Forwarded-For] set to
    the client address when there is one (overwriting what the client
    sent under that name), and the response written to the client has
    every header pair of the upstream response verbatim.  The request
    [tryRequest] of the mirror proxy sends for a target that
    [http.NewRequest] accepts has the headers of the inbound request in
    the same way. *)
Theorem headers_are_forwarded (r : http.Request) :
  canonical_header (http.ReqHeader r) →
  (∀ (p : MappingProxy.Proxy) w n targetURL proxyReq resp world',
     MappingProxy.buildTargetURL p r = Ok targetURL →
     NewRequest (http.Method r) targetURL (http.ReqBody r) = Ok proxyReq →
     RoundTrip (MappingProxy.client p) (forward_headers r proxyReq) (world n)
     = (Ok resp, world') →
     canonical_header (http.RespHeader resp) →
     sent (snd (MappingProxy.ServeHTTP p w r n)) = sent n ++ [forward_headers r proxyReq]
     ∧ verbatim_headers r (forward_headers r proxyReq)
     ∧ (∀ name value,
          http.has_pair (http.RespHeader resp) name value →
          http.has_pair (http.wHeader (fst (MappingProxy.ServeHTTP p w r n))) name value))
  ∧ (∀ (p : MirrorProxy.Proxy) target n proxyReq,
       NewRequest (http.Method r) target None = Ok proxyReq →
       sent (snd (MirrorProxy.tryRequest p target r n))
       = sent n ++ [forward_headers r proxyReq]
       ∧ verbatim_headers r (forward_headers r proxyReq)).
Proof.
  intros Hcanon. split.
  - intros p w n targetURL proxyReq resp world' Hbuild Hnew Hrt Hresp.
    unfold MappingProxy.ServeHTTP, Do. rewrite Hbuild, Hnew, Hrt. simpl.
    split; [done |]. split; [by apply forward_headers_verbatim |].
    intros name value Hp. by apply relay_returns_verbatim.
  - intros p target n proxyReq Hnew. unfold MirrorProxy.tryRequest, Do. rewrite Hnew.
    destruct (RoundTrip _ _ _) as [res world']. simpl.
    split; [done | by apply forward_headers_verbatim].
Qed.

End Sent.

(** ** Failover *)

Section Failover.
Context `{UrlLib} {World : Type} `{!Transport World}.
Import MirrorProxy.



End Failover.

(** ** The handlers on a scripted network *)

(** As in [TestServeHTTP_404_WithMirrorFallback]: the answer of the
    first mirror that has the file comes back, after the primary and the
    mirrors before it have been asked, in order. *)
Example failover_call_order :
  let (w, n) := MirrorProxy.ServeHTTP failover_test.proxy http.NewRecorder
                  failover_test.upload failover_test.net in
  http.wCode w = Some 200
  ∧ http.wBody w = "found on mirror"
  ∧ (fun req => url.Host (http.URL req)) <$> sent n = ["primary.com"; "mirror1.com"; "mirror2.com"].
Proof. vm_compute. done. Qed.




(** C3, as stated: every attempt goes out with the body stream of the
    inbound request.  The attempts of the mirror proxy go out with no
    body. *)
Lemma mirror_attempts_have_no_body :
  ¬ (∀ (p : MirrorProxy.Proxy) (w : http.ResponseWriter) (r : http.Request)
       (n : Net (World := list (string * http.Response))) (req : http.Request),
       req ∈ sent (snd (MirrorProxy.ServeHTTP p w r n)) →
       http.Method req = http.Method r ∧ http.ReqBody req = http.ReqBody r).
Proof.
  intros claim.
  assert (∃ req,
            req ∈ sent (snd (MirrorProxy.ServeHTTP failover_test.proxy http.NewRecorder
                               failover_test.upload failover_test.net))
            ∧ http.ReqBody req = None) as (req & Hin & Hnone).
  { vm_compute. eexists. split; [left | reflexivity]. }
  destruct (claim _ _ _ _ req Hin) as [_ Hbody].
  rewrite Hnone in Hbody. discriminate Hbody.
Qed.

(** C3, amended, on the same exchange and on one of the mapping proxy. *)
Lemma outbound_method_and_body_witness :
  (∃ new, sent (snd (MappingProxy.ServeHTTP
                       (main_test.proxy_with "https://primary.com" [])
                       http.NewRecorder failover_test.upload failover_test.net))
          = sent failover_test.net ++ new
     ∧ ∀ req, req ∈ new →
         http.Method req = method_sent failover_test.upload
         ∧ http.ReqBody req = http.ReqBody failover_test.upload)
  ∧ (∃ new, sent (snd (MirrorProxy.ServeHTTP failover_test.proxy http.NewRecorder
                         failover_test.upload failover_test.net))
            = sent failover_test.net ++ new
       ∧ ∀ req, req ∈ new →
           http.Method req = method_sent failover_test.upload ∧ http.ReqBody req = None).
Proof.
  split.
  - apply (proj1 (outbound_method_and_body (Regexp := regexp.Regexp))
             (main_test.proxy_with "https://primary.com" [])
             http.NewRecorder failover_test.upload failover_test.net
             (fst (MappingProxy.ServeHTTP (main_test.proxy_with "https://primary.com" [])
                     http.NewRecorder failover_test.upload failover_test.net))).
    vm_compute. reflexivity.
  - apply (proj2 (outbound_method_and_body (Regexp := regexp.Regexp))
             failover_test.proxy http.NewRecorder failover_test.upload failover_test.net
             (fst (MirrorProxy.ServeHTTP failover_test.proxy http.NewRecorder
                     failover_test.upload failover_test.net))).
    vm_compute. reflexivity.
Defined.

(** C9, for the upload of the failover tests: through the mapping proxy
    to the primary, which answers, and through [tryRequest] to a
    mirror. *)
Lemma headers_are_forwarded_witness :
  let r := failover_test.upload in
  let p := main_test.proxy_with "https://primary.com" [] in
  let proxyReq :=
    or_default r (NewRequest "POST" "https://primary.com/file.txt" (Some "payload")) in
  let mirrorReq := or_default r (NewRequest "POST" "https://mirror2.com/file.txt" None) in
  (sent (snd (MappingProxy.ServeHTTP p http.NewRecorder r failover_test.net))
   = sent failover_test.net ++ [forward_headers r proxyReq]
   ∧ verbatim_headers r (forward_headers r proxyReq)
   ∧ (∀ name value,
        http.has_pair (http.RespHeader (failover_test.not_found "primary")) name value →
        http.has_pair
          (http.wHeader (fst (MappingProxy.ServeHTTP p http.NewRecorder r failover_test.net)))
          name value))
  ∧ (sent (snd (MirrorProxy.tryRequest failover_test.proxy "https://mirror2.com/file.txt" r
                  failover_test.net))
     = sent failover_test.net ++ [forward_headers r mirrorReq]
     ∧ verbatim_headers r (forward_headers r mirrorReq)).
Proof.
  assert (canonical_header (http.ReqHeader failover_test.upload)) as Hcanon.
  { apply (canonical_header_singleton "User-Agent" ["test-agent"]).
    - vm_compute. reflexivity.
    - discriminate. }
  split.
  - apply (proj1 (headers_are_forwarded (Regexp := regexp.Regexp) failover_test.upload Hcanon)
             (main_test.proxy_with "https://primary.com" []) http.NewRecorder
             failover_test.net "https://primary.com/file.txt"
             (or_default failover_test.upload
                (NewRequest "POST" "https://primary.com/file.txt" (Some "payload")))
             (failover_test.not_found "primary") (world failover_test.net)).
    + vm_compute. reflexivity.
    + vm_compute. reflexivity.
    + vm_compute. reflexivity.
    + apply (canonical_header_singleton "X-Served-By" ["primary"]).
      * vm_compute. reflexivity.
      * discriminate.
  - apply (proj2 (headers_are_forwarded (Regexp := regexp.Regexp) failover_test.upload Hcanon)
             failover_test.proxy "https://mirror2.com/file.txt" failover_test.net
             (or_default failover_test.upload
                (NewRequest "POST" "https://mirror2.com/file.txt" None))).
    vm_compute. reflexivity.
Defined.

(** The headers of [TestServeHTTP_PreservesHeaders], as they go out. *)
Example forwarded_headers :
  http.ReqHeader <$> sent (snd (MirrorProxy.tryRequest failover_test.proxy
                                  "https://mirror2.com/file.txt" failover_test.upload
                                  failover_test.net))
  = [ {["User-Agent" := ["test-agent"]; "X-Forwarded-For" := ["192.0.2.1:1234"]]} ].
Proof. vm_compute. reflexivity. Qed.

(** * Further properties of the code *)

(** ** [NewProxy], [findMapping], [buildTargetURL] *)

Section MappingMore.
Context {Regexp : Type} `{!RegexpLib Regexp} `{UrlLib} {World : Type} `{!Transport World}.
Import MappingProxy.

Lemma compile_mappings_all mappings : ∀ compiled,
  (∀ m, m ∈ mappings → is_Ok (Compile (From m)) = true) →
  ∃ compiled', compile_mappings mappings compiled = Ok compiled'.
Proof.
  induction mappings as [|m0 mappings IH]; intros compiled Hall; simpl; [by eexists |].
  destruct (Compile (From m0)) as [re|err] eqn:E.
  - apply IH. intros m ?. apply Hall. by right.
  - specialize (Hall m0 ltac:(left)). by rewrite E in Hall.
Qed.

Lemma compile_mappings_first_bad pre m post err : ∀ compiled,
  (∀ m', m' ∈ pre → is_Ok (Compile (From m')) = true) →
  Compile (From m) = Err err →
  compile_mappings (pre ++ m :: post) compiled
  = Err ("invalid regex pattern '" +:+ From m +:+ "': " +:+ err).
Proof.
  induction pre as [|m0 pre IH]; intros compiled Hpre Hm; simpl.
  - by rewrite Hm.
  - destruct (Compile (From m0)) as [re|err0] eqn:E.
    + apply IH; [| done]. intros m' ?. apply Hpre. by right.
    + specialize (Hpre m0 ltac:(left)). by rewrite E in Hpre.
Qed.

Lemma compile_mappings_templates mappings compiled :
  compile_mappings mappings [] = Ok compiled → to <$> compiled = To <$> mappings.
Proof.
  intros (new & -> & Hnew)%compile_mappings_ok. simpl.
  induction Hnew as [|m c ms cs [_ Hto] _ IH]; [done |]. by rewrite !fmap_cons, Hto, IH.
Qed.

(** The proxy [NewProxy] builds from patterns that compile. *)
Lemma NewProxy_of_valid (host : string) (mappings : list PathMapping) (follow : bool) :
  (∀ m, m ∈ mappings → is_Ok (Compile (From m)) = true) →
  ∃ compiled,
    NewProxy host mappings follow
    = Ok (mkProxy (http.mkClient 30 (if negb follow then Some http.UseLastResponse else None))
                  host compiled follow)
    ∧ to <$> compiled = To <$> mappings.
Proof.
  intros Hall. unfold NewProxy.
  destruct (compile_mappings_all mappings [] Hall) as [compiled Hc]. rewrite Hc.
  exists compiled. split; [done |]. by apply compile_mappings_templates.
Qed.

(** X1. When every pattern compiles, [NewProxy] returns a proxy: it
    keeps the default host and the redirect flag, holds one compiled
    mapping per configured mapping, in order and with the same
    templates, and its client has a 30 second timeout and stops at
    redirects exactly when redirects are not to be followed. *)
Theorem NewProxy_accepts_valid_patterns
    (host : string) (mappings : list PathMapping) (follow : bool) :
  (∀ m, m ∈ mappings → is_Ok (Compile (From m)) = true) →
  ∃ p, NewProxy host mappings follow = Ok p
    ∧ defaultHost p = host
    ∧ followRedirects p = follow
    ∧ to <$> compiledMappings p = To <$> mappings
    ∧ http.Timeout (client p) = 30
    ∧ (http.CheckRedirect (client p) = Some http.UseLastResponse ↔ follow = false).
Proof.
  intros Hall. destruct (NewProxy_of_valid host mappings follow Hall) as (compiled & -> & Hto).
  eexists. split; [done |]. simpl. repeat split; try done.
  - by destruct follow.
  - by intros ->.
Qed.

(** X2. The error of [NewProxy] is about the first pattern, in
    configured order, that does not compile: it quotes that pattern and
    carries the error of [regexp.Compile]; what follows the pattern in
    the list plays no part. *)
Theorem NewProxy_reports_first_invalid_pattern
    (host : string) (pre post : list PathMapping) (m : PathMapping) (follow : bool)
    (err : error) :
  (∀ m', m' ∈ pre → is_Ok (Compile (From m')) = true) →
  Compile (From m) = Err err →
  NewProxy host (pre ++ m :: post) follow
  = Err ("invalid regex pattern '" +:+ From m +:+ "': " +:+ err).
Proof.
  intros Hpre Hm. unfold NewProxy. by rewrite (compile_mappings_first_bad _ _ _ err).
Qed.

Lemma find_in_found_iff (mappings : list compiledMapping) (path : string) :
  snd (find_in mappings path) = true
  ↔ ∃ m, m ∈ mappings ∧ MatchString (regex m) path = true.
Proof.
  induction mappings as [|m0 ms IH]; simpl.
  - split; [done |]. by intros (m & ?%elem_of_nil & _).
  - destruct (MatchString (regex m0) path) eqn:E; simpl.
    + split; [| done]. intros _. exists m0. split; [left | done].
    + rewrite IH. split.
      * intros (m & ? & ?). exists m. split; [by right | done].
      * intros (m & [-> | ?]%elem_of_cons & Hm); [congruence | by exists m].
Qed.

Lemma find_in_not_found (mappings : list compiledMapping) (path : string) :
  snd (find_in mappings path) = false → find_in mappings path = ("", false).
Proof.
  induction mappings as [|m0 ms IH]; simpl; [done |].
  by destruct (MatchString (regex m0) path).
Qed.

(** X3. [findMapping] reports a match exactly when some mapping matches
    the path, and returns the empty string when it reports none. *)
Theorem findMapping_found_iff (p : Proxy) (path : string) :
  (snd (findMapping p path) = true
   ↔ ∃ m, m ∈ compiledMappings p ∧ MatchString (regex m) path = true)
  ∧ (snd (findMapping p path) = false → findMapping p path = ("", false)).
Proof.
  unfold findMapping. split; [apply find_in_found_iff | apply find_in_not_found].
Qed.

(** X4. A mapping that matches is used before the default host is looked
    at: the target is then the same whatever the default host is, empty
    or not, well formed or not, and resolution succeeds. *)
Theorem buildTargetURL_mapping_before_default_host (p p' : Proxy) (r : http.Request) :
  compiledMappings p = compiledMappings p' →
  (∃ m, m ∈ compiledMappings p ∧ MatchString (regex m) (originalPath r) = true) →
  buildTargetURL p r = buildTargetURL p' r
  ∧ is_Ok (buildTargetURL p r) = true.
Proof.
  intros Hsame Hm%find_in_found_iff.
  unfold buildTargetURL, findMapping. rewrite <- Hsame.
  destruct (find_in (compiledMappings p) (originalPath r)) as [mapped found].
  simpl in Hm. by rewrite Hm.
Qed.

Lemma Error_fresh (msg : string) (code : nat) (w : http.ResponseWriter) :
  http.wCode w = None →
  http.checkWriteHeaderCode code = true →
  http.wCode (http.Error msg code w) = Some code
  ∧ http.wBody (http.Error msg code w) = http.wBody w +:+ msg +:+ String "010" "".
Proof.
  intros Hfresh Hcode. unfold http.Error, http.Write_, http.WriteHeader. simpl.
  by rewrite Hfresh, Hcode.
Qed.

(** A status outside 100..999 makes [WriteHeader] panic: the handler
    ends with the headers in the map of the writer and nothing
    written. *)
Lemma relay_panics (resp : http.Response) (w : http.ResponseWriter) :
  http.wCode w = None →
  http.checkWriteHeaderCode (http.StatusCode resp) = false →
  http.wCode (relay resp w) = None ∧ http.wBody (relay resp w) = http.wBody w.
Proof.
  intros Hfresh Hcode. unfold relay, http.WriteHeader. simpl. by rewrite Hfresh, Hcode.
Qed.

(** X5. A default host that is configured but does not parse as a URL
    makes resolution fail for every request that matches no mapping: the
    error says so, the handler answers 502 and nothing is sent. *)
Theorem invalid_default_host_bad_gateway
    (p : Proxy) (w : http.ResponseWriter) (r : http.Request) (n : Net) (err : error) :
  (∀ m, m ∈ compiledMappings p → MatchString (regex m) (originalPath r) = false) →
  defaultHost p ≠ "" →
  Parse (defaultHost p) = Err err →
  http.wCode w = None →
  buildTargetURL p r = Err ("invalid default host: " +:+ err)
  ∧ ∃ w', ServeHTTP p w r n = (w', n) ∧ http.wCode w' = Some http.StatusBadGateway.
Proof.
  intros Hnone Hhost Hparse Hfresh.
  assert (buildTargetURL p r = Err ("invalid default host: " +:+ err)) as Hbuild.
  { unfold buildTargetURL, findMapping. rewrite find_in_none by done.
    rewrite bool_decide_false by done. by rewrite Hparse. }
  split; [done |]. unfold ServeHTTP. rewrite Hbuild. eexists. split; [done |].
  by (apply Error_fresh; [| vm_compute]).
Qed.

(** X6. Every failure on the way out becomes a response, and none is
    retried: a target that [http.NewRequest] rejects gives 500 with
    nothing sent; a request that fails in transport gives 502, after that
    one request. *)
Theorem ServeHTTP_failure_statuses
    (p : Proxy) (w : http.ResponseWriter) (r : http.Request) (n : Net)
    (targetURL : string) :
  http.wCode w = None →
  buildTargetURL p r = Ok targetURL →
  (∀ err,
     NewRequest (http.Method r) targetURL (http.ReqBody r) = Err err →
     ∃ w', ServeHTTP p w r n = (w', n)
       ∧ http.wCode w' = Some http.StatusInternalServerError)
  ∧ (∀ proxyReq err world',
       NewRequest (http.Method r) targetURL (http.ReqBody r) = Ok proxyReq →
       RoundTrip (client p) (forward_headers r proxyReq) (world n) = (Err err, world') →
       ∃ w', ServeHTTP p w r n
             = (w', mkNet world' (sent n ++ [forward_headers r proxyReq]))
         ∧ http.wCode w' = Some http.StatusBadGateway).
Proof.
  intros Hfresh Hbuild. unfold ServeHTTP. rewrite Hbuild. split.
  - intros err ->. eexists. split; [done |]. by (apply Error_fresh; [| vm_compute]).
  - intros proxyReq err world' -> Hrt. unfold Do. rewrite Hrt. eexists. split; [done |].
    by (apply Error_fresh; [| vm_compute]).
Qed.

(** X7. What the upstream answers is relayed as it is, whatever its
    status from 200 to 999: 404, 500 or a redirect are not errors.  The
    client gets the status and the body of the upstream response, and
    one request has been sent. *)
Theorem ServeHTTP_relays_any_status
    (p : Proxy) (w : http.ResponseWriter) (r : http.Request) (n : Net)
    (targetURL : string) (proxyReq : http.Request) (resp : http.Response)
    (world' : World) :
  http.wCode w = None →
  http.Closed resp = false →
  200 ≤ http.StatusCode resp ≤ 999 →
  buildTargetURL p r = Ok targetURL →
  NewRequest (http.Method r) targetURL (http.ReqBody r) = Ok proxyReq →
  RoundTrip (client p) (forward_headers r proxyReq) (world n) = (Ok resp, world') →
  ∃ w', ServeHTTP p w r n = (w', mkNet world' (sent n ++ [forward_headers r proxyReq]))
    ∧ http.wCode w' = Some (http.StatusCode resp)
    ∧ http.wBody w' = http.wBody w +:+ http.RespBody resp.
Proof.
  intros Hfresh Hopen Hstatus Hbuild Hnew Hrt. unfold ServeHTTP, Do.
  rewrite Hbuild, Hnew, Hrt. eexists. split; [done |].
  by apply relay_sends; [| | apply final_status_checked].
Qed.

End MappingMore.

(** ** Headers, exactly *)

Section HeadersExact.
Context {Regexp : Type} `{!RegexpLib Regexp} `{UrlLib} {World : Type} `{!Transport World}.

Lemma add_values_insert name values : ∀ (dst : http.Header),
  values ≠ [] →
  add_values name values dst
  = <[http.CanonicalMIMEHeaderKey name :=
        default [] (dst !! http.CanonicalMIMEHeaderKey name) ++ values]> dst.
Proof.
  unfold add_values. induction values as [|v values IH]; intros dst Hne; [done |].
  cbn [foldl]. destruct values as [|v' values]; [done |].
  rewrite IH by done. unfold http.Add. rewrite lookup_insert_eq. simpl.
  by rewrite insert_insert_eq, <- app_assoc.
Qed.

Lemma add_entries_union (entries : list (string * list string)) : ∀ (dst : http.Header),
  NoDup (entries.*1) →
  (∀ name values, (name, values) ∈ entries →
     http.CanonicalMIMEHeaderKey name = name ∧ values ≠ [] ∧ dst !! name = None) →
  add_entries entries dst = list_to_map entries ∪ dst.
Proof.
  unfold add_entries.
  induction entries as [|[name values] entries IH]; intros dst Hnodup Hall.
  { simpl. by rewrite (left_id_L ∅ (∪)). }
  cbn [foldl fst snd]. rewrite fmap_cons in Hnodup. apply NoDup_cons in Hnodup as [Hfresh Hnodup].
  destruct (Hall name values ltac:(left)) as (Hcanon & Hne & Hdst).
  rewrite add_values_insert, Hcanon, Hdst by done. simpl.
  rewrite IH; [| done |].
  - rewrite <- insert_union_l.
    rewrite insert_union_r; [done |]. by apply not_elem_of_list_to_map_1.
  - intros name' values' Hin. destruct (Hall name' values' ltac:(by right)) as (? & ? & ?).
    repeat split; [done | done |]. rewrite lookup_insert_ne; [done |].
    intros ->. apply Hfresh. apply list_elem_of_fmap. by exists (name', values').
Qed.

(** Copying a header map of canonical names into an empty one gives the
    map back. *)
Lemma copy_header_exact (src : http.Header) :
  canonical_header src → copy_header src ∅ = src.
Proof.
  intros Hsrc. unfold copy_header. rewrite add_entries_union.
  - by rewrite (right_id_L ∅ (∪)), list_to_map_to_list.
  - apply NoDup_fst_map_to_list.
  - intros name values Hin%elem_of_map_to_list. destruct (Hsrc _ _ Hin). by repeat split.
Qed.

Lemma NewRequest_header method target body req :
  NewRequest method target body = Ok req → http.ReqHeader req = ∅.
Proof.
  unfold NewRequest. destruct (negb _); [done |].
  destruct (Parse target); [| done]. by intros [= <-].
Qed.

Lemma outbound_header_exact (r : http.Request) body req :
  canonical_header (http.ReqHeader r) →
  outbound r body req →
  http.ReqHeader req = forwarded r.
Proof.
  intros Hcanon (target & proxyReq & Hnew & ->). unfold forward_headers, forwarded. simpl.
  rewrite (NewRequest_header _ _ _ _ Hnew), copy_header_exact by done.
  case_bool_decide; [done |]. simpl. unfold http.Set_. by rewrite canonical_forwarded_for.
Qed.

(** X8. The mapping proxy sends at most one request, and it carries the
    headers of the inbound request and nothing else: for a header map
    as [net/http] builds it, the outbound headers are the inbound ones,
    values in their order, with [X-Forwarded-For] replaced by the client
    address when there is one.  No header is dropped, none is added or
    filtered. *)
Theorem mapping_outbound_headers_exact
    (p : MappingProxy.Proxy) (w : http.ResponseWriter) (r : http.Request) (n : Net) :
  canonical_header (http.ReqHeader r) →
  ∃ new, sent (snd (MappingProxy.ServeHTTP p w r n)) = sent n ++ new
    ∧ length new ≤ 1
    ∧ Forall (fun req => http.ReqHeader req = forwarded r) new.
Proof.
  intros Hcanon. destruct (MappingProxy.ServeHTTP p w r n) as [w' n'] eqn:Hserve.
  apply mapping_ServeHTTP_sent in Hserve as [-> | (req & res & world' & Hout & _ & -> & _)].
  - exists []. simpl. rewrite app_nil_r. split; [done |]. split; [lia | constructor].
  - exists [req]. simpl. split; [done |]. split; [lia |].
    constructor; [| constructor]. by eapply outbound_header_exact.
Qed.

(** X9. Every attempt of the mirror proxy, against the primary target or
    a mirror, carries the same headers: those of the inbound request,
    with [X-Forwarded-For] replaced by the client address when there is
    one, and nothing else. *)
Theorem mirror_outbound_headers_exact
    (p : MirrorProxy.Proxy) (w : http.ResponseWriter) (r : http.Request) (n : Net) :
  canonical_header (http.ReqHeader r) →
  ∃ new, sent (snd (MirrorProxy.ServeHTTP p w r n)) = sent n ++ new
    ∧ Forall (fun req => http.ReqHeader req = forwarded r) new.
Proof.
  intros Hcanon. destruct (MirrorProxy.ServeHTTP p w r n) as [w' n'] eqn:Hserve.
  apply mirror_ServeHTTP_sent in Hserve as (new & Hs & Hf).
  exists new. split; [done |]. eapply Forall_impl; [exact Hf |].
  intros req Hout. by eapply outbound_header_exact.
Qed.

(** X10. The response goes back with the headers of the upstream
    response and nothing else: on a writer with no header yet, after the
    mapping proxy has relayed an upstream response whose header map is as
    [net/http] builds it, the writer's headers are that map. *)
Theorem response_headers_exact
    (p : MappingProxy.Proxy) (w : http.ResponseWriter) (r : http.Request) (n : Net)
    (targetURL : string) (proxyReq : http.Request) (resp : http.Response)
    (world' : World) :
  http.wHeader w = ∅ →
  canonical_header (http.RespHeader resp) →
  MappingProxy.buildTargetURL p r = Ok targetURL →
  NewRequest (http.Method r) targetURL (http.ReqBody r) = Ok proxyReq →
  RoundTrip (MappingProxy.client p) (forward_headers r proxyReq) (world n)
  = (Ok resp, world') →
  http.wHeader (fst (MappingProxy.ServeHTTP p w r n)) = http.RespHeader resp.
Proof.
  intros Hw Hcanon Hbuild Hnew Hrt. unfold MappingProxy.ServeHTTP, Do.
  rewrite Hbuild, Hnew, Hrt. simpl. rewrite relay_header, Hw. by apply copy_header_exact.
Qed.

End HeadersExact.

(** ** The mirror proxy, run by run *)

Section MirrorMore.
Context `{UrlLib} {World : Type} `{!Transport World}.
Import MirrorProxy.

(** X11. A primary response that is not a 404, or any primary response
    when no mirror is configured, is relayed whole, for every status
    from 200 to 999: the client gets its status and its body, and the
    request to the primary is the only one sent. *)
Theorem mirror_relays_primary_whole
    (p : Proxy) (w : http.ResponseWriter) (r : http.Request) (n n1 : Net)
    (resp0 : http.Response) :
  http.wCode w = None →
  http.Closed resp0 = false →
  200 ≤ http.StatusCode resp0 ≤ 999 →
  tryRequest p (target_of r) r n = (Ok resp0, n1) →
  http.StatusCode resp0 ≠ http.StatusNotFound ∨ mirrors p = [] →
  ∃ w', ServeHTTP p w r n = (w', n1)
    ∧ sent n1 = sent n ++ requests_to r [target_of r]
    ∧ http.wCode w' = Some (http.StatusCode resp0)
    ∧ http.wBody w' = http.wBody w +:+ http.RespBody resp0.
Proof.
  intros Hfresh Hopen Hrange Htry Hcase. exists (relay resp0 w). split; [| split].
  - unfold ServeHTTP. rewrite Htry.
    destruct Hcase as [Hstatus | Hnone].
    + by rewrite bool_decide_false by done.
    + rewrite Hnone. simpl. by rewrite andb_false_r.
  - by apply tryRequest_sent in Htry as [? _].
  - by apply relay_sends; [| | apply final_status_checked].
Qed.

(** X12. There is no failover on a transport failure: when the attempt
    against the primary target fails, the handler answers 502 and no
    mirror is tried, however many are configured. *)
Theorem mirror_primary_error_no_failover
    (p : Proxy) (w : http.ResponseWriter) (r : http.Request) (n n1 : Net) (err : error) :
  http.wCode w = None →
  tryRequest p (target_of r) r n = (Err err, n1) →
  ∃ w', ServeHTTP p w r n = (w', n1)
    ∧ sent n1 = sent n ++ requests_to r [target_of r]
    ∧ http.wCode w' = Some http.StatusBadGateway.
Proof.
  intros Hfresh Htry. unfold ServeHTTP. rewrite Htry. eexists. split; [done |].
  split; [by apply tryRequest_sent in Htry as [? _] |].
  by (apply Error_fresh; [| vm_compute]).
Qed.

Lemma rewrites_cons_Err (p : Proxy) target mirror mirrors err :
  replaceHost p target mirror = Err err →
  rewrites p target (mirror :: mirrors) = rewrites p target mirrors.
Proof. intros Hr. unfold rewrites. simpl. by rewrite Hr. Qed.

Lemma rewrites_cons_Ok (p : Proxy) target mirror mirrors mirrorURL :
  replaceHost p target mirror = Ok mirrorURL →
  rewrites p target (mirror :: mirrors) = mirrorURL :: rewrites p target mirrors.
Proof. intros Hr. unfold rewrites. simpl. by rewrite Hr. Qed.

Lemma try_mirrors_prefix (p : Proxy) target r mirrors : ∀ resp n resp' n',
  try_mirrors p target r mirrors resp n = (resp', n') →
  ∃ k, k ≤ length mirrors
    ∧ sent n' = sent n ++ requests_to r (rewrites p target (take k mirrors)).
Proof.
  induction mirrors as [|mirror mirrors IH]; intros resp n resp' n'; simpl.
  - intros [= <- <-]. exists 0. split; [done |]. by rewrite app_nil_r.
  - destruct (replaceHost p target mirror) as [mirrorURL|err] eqn:Hr.
    + destruct (tryRequest p mirrorURL r n) as [res n1] eqn:Htry.
      apply tryRequest_sent in Htry as [Hsent _].
      assert (∀ resp1 n2, try_mirrors p target r mirrors resp n1 = (resp1, n2) →
                ∃ k, k ≤ S (length mirrors)
                  ∧ sent n2 = sent n
                      ++ requests_to r (rewrites p target (take k (mirror :: mirrors))))
        as Hnext.
      { intros resp1 n2 (k & Hk & Hs)%IH. exists (S k). split; [lia |].
        cbn [take]. rewrite (rewrites_cons_Ok _ _ _ _ _ Hr).
        change (mirrorURL :: ?l) with ([mirrorURL] ++ l).
        by rewrite requests_to_app, Hs, Hsent, app_assoc. }
      destruct res as [mirrorResp|err]; [| apply Hnext].
      case_bool_decide; simpl; [apply Hnext |]. intros [= <- <-].
      exists 1. split; [lia |]. cbn [take]. rewrite (rewrites_cons_Ok _ _ _ _ _ Hr).
      by rewrite take_0.
    + intros (k & Hk & Hs)%IH. exists (S k). split; [lia |].
      cbn [take]. by rewrite (rewrites_cons_Err _ _ _ _ _ Hr).
Qed.

Lemma requests_to_length r urls : length (requests_to r urls) ≤ length urls.
Proof.
  induction urls as [|target urls IH]; [done |].
  change (target :: urls) with ([target] ++ urls).
  rewrite requests_to_app, length_app. unfold requests_to at 1. simpl.
  destruct (NewRequest _ target None); simpl; lia.
Qed.

Lemma rewrites_length (p : Proxy) target mirrors :
  length (rewrites p target mirrors) ≤ length mirrors.
Proof.
  induction mirrors as [|mirror mirrors IH]; [done |].
  destruct (replaceHost p target mirror) as [mirrorURL|err] eqn:Hr.
  - rewrite (rewrites_cons_Ok _ _ _ _ _ Hr). simpl. lia.
  - rewrite (rewrites_cons_Err _ _ _ _ _ Hr). simpl. lia.
Qed.

(** X13. In every run, the mirrors that are tried are the first [k] of
    the configured list, for some [k], each at most once and in the
    configured order, after the primary target: what the handler sends
    is the request to the primary followed by the requests to the
    rewritten URLs of those mirrors.  So a request from a client costs at
    most one outbound request per mirror, plus one. *)
Theorem mirror_tries_a_prefix_in_order
    (p : Proxy) (w : http.ResponseWriter) (r : http.Request) (n : Net) :
  (∃ k, k ≤ length (mirrors p)
     ∧ sent (snd (ServeHTTP p w r n))
       = sent n ++ requests_to r (target_of r :: rewrites p (target_of r) (take k (mirrors p))))
  ∧ length (sent (snd (ServeHTTP p w r n))) ≤ length (sent n) + 1 + length (mirrors p).
Proof.
  destruct (ServeHTTP p w r n) as [w' n'] eqn:Hserve. simpl.
  assert (∃ k, k ≤ length (mirrors p)
            ∧ sent n'
              = sent n ++ requests_to r
                            (target_of r :: rewrites p (target_of r) (take k (mirrors p))))
    as (k & Hk & Hsent).
  { unfold ServeHTTP in Hserve.
    destruct (tryRequest p _ r n) as [res n1] eqn:Htry.
    apply tryRequest_sent in Htry as [Hsent1 _].
    change (target_of r :: ?l) with ([target_of r] ++ l).
    destruct res as [resp|err].
    - destruct (_ && _).
      + destruct (try_mirrors _ _ _ _ _ _) as [resp1 n2] eqn:Hloop.
        apply try_mirrors_prefix in Hloop as (k & Hk & Hs). injection Hserve as _ <-.
        exists k. split; [done |]. by rewrite requests_to_app, Hs, Hsent1, app_assoc.
      + injection Hserve as _ <-. exists 0. split; [lia |].
        by rewrite take_0, app_nil_r.
    - injection Hserve as _ <-. exists 0. split; [lia |]. by rewrite take_0, app_nil_r. }
  split; [by exists k |]. rewrite Hsent, length_app.
  pose proof (requests_to_length r
                (target_of r :: rewrites p (target_of r) (take k (mirrors p)))) as Hlen.
  pose proof (rewrites_length p (target_of r) (take k (mirrors p))) as Hlen'.
  rewrite length_take in Hlen'. rewrite length_cons in Hlen. lia.
Qed.

(** X14. With no mirror configured, the mirror proxy is the plain proxy
    for every request without a body that [http.NewRequest] accepts: the
    same response is written and the same request is sent. *)
Theorem mirror_without_mirrors_is_plain
    (w : http.ResponseWriter) (r : http.Request) (n : Net) :
  http.ReqBody r = None →
  is_Ok (NewRequest (http.Method r) (target_of r) None) = true →
  ServeHTTP (NewProxy []) w r n = PlainProxy.ServeHTTP PlainProxy.NewProxy w r n.
Proof.
  intros Hbody Hnew. unfold ServeHTTP, PlainProxy.ServeHTTP, tryRequest. rewrite Hbody.
  destruct (NewRequest _ (target_of r) None) as [proxyReq|err]; [| done]. simpl.
  destruct (Do _ _ n) as [[resp|err] n1]; [| done]. by rewrite andb_false_r.
Qed.

(** X15. The plain proxy sends the body along: a request that
    [http.NewRequest] rejects is answered 500 with nothing sent;
    otherwise exactly one request goes out, with the method and the body
    of the inbound request and its headers. *)
Theorem plain_forwards_method_and_body
    (p : PlainProxy.Proxy) (w : http.ResponseWriter) (r : http.Request) (n : Net) :
  http.wCode w = None →
  (is_Ok (NewRequest (http.Method r) (target_of r) (http.ReqBody r)) = false
   ∧ snd (PlainProxy.ServeHTTP p w r n) = n
   ∧ http.wCode (fst (PlainProxy.ServeHTTP p w r n))
     = Some http.StatusInternalServerError)
  ∨ (∃ req, sent (snd (PlainProxy.ServeHTTP p w r n)) = sent n ++ [req]
       ∧ http.Method req = method_sent r
       ∧ http.ReqBody req = http.ReqBody r
       ∧ carries_headers r req).
Proof.
  intros Hfresh. unfold PlainProxy.ServeHTTP.
  destruct (NewRequest _ (target_of r) _) as [proxyReq|err] eqn:Hnew.
  - right. exists (forward_headers r proxyReq).
    assert (outbound r (http.ReqBody r) (forward_headers r proxyReq)) as Hout
      by (by exists (target_of r), proxyReq).
    split.
    + unfold Do. by destruct (RoundTrip _ _ _) as [[resp|err] world'].
    + destruct (outbound_method_body _ _ _ Hout). by split; [| split; [| eapply outbound_carries]].
  - left. split; [done |]. split; [done |]. cbn [fst].
    by destruct (Error_fresh "Failed to create proxy request"
                   http.StatusInternalServerError w Hfresh eq_refl).
Qed.

End MirrorMore.

(** ** [replaceHost] on Go's URLs *)

Section ReplaceHost.
Import MirrorProxy.

(** X16. [replaceHost] swaps the scheme and the host and keeps the rest:
    for an original URL with a host and a mirror with a scheme and a
    host, under Go's [url.Parse] and [URL.String], the result is the
    mirror's scheme and host followed by the path and the query of the
    original URL.  A path or a query on the mirror's URL is dropped. *)
Theorem replaceHost_swaps_scheme_and_host
    (p : Proxy) (originalURL mirror : string) (u m : url.URL) :
  url.Parse originalURL = Ok u →
  url.Parse mirror = Ok m →
  url.Host u ≠ "" → url.Scheme m ≠ "" → url.Host m ≠ "" →
  replaceHost p originalURL mirror
  = Ok (url.Scheme m +:+ "://" +:+ url.Host m +:+ url.Path u
        +:+ (if url.ForceQuery u || negb (bool_decide (url.RawQuery u = ""))
             then "?" +:+ url.RawQuery u else "")).
Proof.
  intros Hu Hm Hhost Hscheme Hmhost. unfold replaceHost.
  change (Parse originalURL) with (url.Parse originalURL).
  change (Parse mirror) with (url.Parse mirror). rewrite Hu, Hm.
  destruct (Parse_shape _ _ Hu) as [_ Hshape].
  destruct (Hshape Hhost) as (-> & Hpath & Hslash).
  destruct (Parse_shape _ _ Hm) as [Hclean _].
  change (URL_String ?x) with (url.String x). by rewrite String_over_host.
Qed.

End ReplaceHost.

(** ** Startup: from the flags, the environment and the file to the proxy *)

Section MainMore.
Context {Regexp : Type} `{!RegexpLib Regexp} `{UrlLib} {World : Type} `{!Transport World}
        `{!MappingProxy.ConfigFiles}.
Import MappingProxy.

(** [main] outside test mode, with its settings named. *)
Lemma main_eq (args : list string) (flags : Flags) (Getenv : string → string) :
  args !! 1 ≠ Some "test" →
  main args flags Getenv
  = let config := match loadConfig (config_path flags Getenv) with
                  | Ok config => config
                  | Err _ => mkConfig "" [] false
                  end in
    match NewProxy
            (if bool_decide (hostOverride flags = "") then DefaultHost config
             else hostOverride flags)
            (PathMappings config)
            (followRedirectsFlag flags || bool_decide (Getenv "FOLLOW_REDIRECTS" = "true")
             || FollowRedirects config) with
    | Err err => Fatal ("Failed to create proxy: " +:+ err)
    | Ok proxy => Serving (":" +:+ listen_port flags Getenv) proxy
    end.
Proof.
  intros Htest. unfold main, config_path, listen_port.
  rewrite (bool_decide_false (args !! 1 = _)), andb_false_r by done. cbv zeta.
  destruct (followRedirectsFlag flags); repeat case_bool_decide; simpl; try done.
Qed.

(** X17. A configuration that cannot be loaded does not stop [main]: it
    serves with no mapping and with the [-host] flag as the only default
    host; without that flag, every request is answered 502 and nothing
    is sent. *)
Theorem main_serves_without_config
    (args : list string) (flags : Flags) (Getenv : string → string) (err : error) :
  args !! 1 ≠ Some "test" →
  loadConfig (config_path flags Getenv) = Err err →
  ∃ proxy,
    main args flags Getenv = Serving (":" +:+ listen_port flags Getenv) proxy
    ∧ compiledMappings proxy = []
    ∧ defaultHost proxy = hostOverride flags
    ∧ (hostOverride flags = "" →
       ∀ (w : http.ResponseWriter) (r : http.Request) (n : Net),
         http.wCode w = None →
         ∃ w', ServeHTTP proxy w r n = (w', n)
           ∧ http.wCode w' = Some http.StatusBadGateway).
Proof.
  intros Htest Hload. rewrite main_eq by done. rewrite Hload. cbv zeta.
  cbn [PathMappings DefaultHost FollowRedirects NewProxy compile_mappings].
  eexists. split; [done |]. cbn [compiledMappings defaultHost]. split; [done |].
  split; [by case_bool_decide |].
  intros Hhost w r n Hfresh. unfold ServeHTTP, buildTargetURL, findMapping.
  cbn [compiledMappings defaultHost find_in].
  rewrite !(bool_decide_true (hostOverride flags = "")) by done.
  rewrite (bool_decide_true ("" = "")) by done.
  eexists. split; [done |]. by (apply Error_fresh; [| vm_compute]).
Qed.

(** X18. A configuration that loads but holds a pattern that does not
    compile stops [main]: it ends in [log.Fatalf], with the message of
    [NewProxy] about the first such pattern, and does not serve. *)
Theorem main_fatal_on_invalid_pattern
    (args : list string) (flags : Flags) (Getenv : string → string) (config : Config)
    (pre post : list PathMapping) (m : PathMapping) (err : error) :
  args !! 1 ≠ Some "test" →
  loadConfig (config_path flags Getenv) = Ok config →
  PathMappings config = pre ++ m :: post →
  (∀ m', m' ∈ pre → is_Ok (Compile (From m')) = true) →
  Compile (From m) = Err err →
  main args flags Getenv
  = Fatal ("Failed to create proxy: invalid regex pattern '" +:+ From m +:+ "': " +:+ err).
Proof.
  intros Htest Hload Hmappings Hpre Hm. rewrite main_eq by done. rewrite Hload. cbv zeta.
  unfold NewProxy. by rewrite Hmappings, (compile_mappings_first_bad _ _ _ err).
Qed.

(** X19. With a configuration that loads and compiles, [main] serves:
    on the port of the [-port] flag, else of [PORT], else 8080; with the
    [-host] flag as default host, else the configured one; following
    redirects when the flag, [FOLLOW_REDIRECTS=true] or the file says so
    (none of them can switch it off); and with the mappings of the file,
    in order. *)
Theorem main_serves_loaded_config
    (args : list string) (flags : Flags) (Getenv : string → string) (config : Config) :
  args !! 1 ≠ Some "test" →
  loadConfig (config_path flags Getenv) = Ok config →
  (∀ m, m ∈ PathMappings config → is_Ok (Compile (From m)) = true) →
  ∃ proxy,
    main args flags Getenv = Serving (":" +:+ listen_port flags Getenv) proxy
    ∧ defaultHost proxy
      = (if bool_decide (hostOverride flags = "") then DefaultHost config
         else hostOverride flags)
    ∧ followRedirects proxy
      = followRedirectsFlag flags || bool_decide (Getenv "FOLLOW_REDIRECTS" = "true")
        || FollowRedirects config
    ∧ to <$> compiledMappings proxy = To <$> PathMappings config
    ∧ (http.CheckRedirect (client proxy) = Some http.UseLastResponse
       ↔ followRedirects proxy = false).
Proof.
  intros Htest Hload Hall. rewrite main_eq by done. rewrite Hload. cbv zeta.
  destruct (NewProxy_of_valid
              (if bool_decide (hostOverride flags = "") then DefaultHost config
               else hostOverride flags)
              (PathMappings config)
              (followRedirectsFlag flags || bool_decide (Getenv "FOLLOW_REDIRECTS" = "true")
               || FollowRedirects config) Hall) as (compiled & -> & Hto).
  eexists. split; [done |]. cbn [defaultHost followRedirects compiledMappings client].
  repeat split; try done.
  - by destruct (_ || _).
  - by intros ->.
Qed.

(** X20. [CONFIG_FILE] is read only while the [-config] flag holds its
    default: with any other value of the flag, the variable changes
    nothing of what [main] does. *)
Theorem CONFIG_FILE_yields_to_the_flag
    (args : list string) (flags : Flags) (Getenv Getenv' : string → string) :
  configFile flags ≠ "config.yaml" →
  (∀ key, key ≠ "CONFIG_FILE" → Getenv' key = Getenv key) →
  main args flags Getenv' = main args flags Getenv.
Proof.
  intros Hflag Hsame. unfold main.
  rewrite (bool_decide_false (configFile flags = _)), !andb_false_r by done.
  by rewrite !(Hsame "FOLLOW_REDIRECTS"), !(Hsame "PORT") by done.
Qed.

End MainMore.

(** ** The further properties at the configurations of the tests *)

(** X1, at the mappings of [TestNewProxy]. *)
Lemma NewProxy_accepts_valid_patterns_witness :
  ∃ p, MappingProxy.NewProxy "https://default.com"
         [main_test.watchdog; main_test.api_users] false = Ok p
    ∧ MappingProxy.defaultHost p = "https://default.com"
    ∧ MappingProxy.followRedirects p = false
    ∧ MappingProxy.to <$> MappingProxy.compiledMappings p
      = MappingProxy.To <$> [main_test.watchdog; main_test.api_users]
    ∧ http.Timeout (MappingProxy.client p) = 30
    ∧ (http.CheckRedirect (MappingProxy.client p) = Some http.UseLastResponse
       ↔ false = false).
Proof.
  apply (NewProxy_accepts_valid_patterns "https://default.com"
           [main_test.watchdog; main_test.api_users] false).
  intros m Hin.
  apply elem_of_cons in Hin as [-> | Hin]; [vm_compute; reflexivity |].
  apply elem_of_cons in Hin as [-> | Hin]; [vm_compute; reflexivity |].
  apply elem_of_nil in Hin. destruct Hin.
Defined.

(** X2, at [TestNewProxy_InvalidRegex], between two mappings that
    compile. *)
Lemma NewProxy_reports_first_invalid_pattern_witness :
  MappingProxy.NewProxy "https://default.com"
    ([main_test.item] ++ startup_test.bad_pattern :: [main_test.api_users]) false
  = Err ("invalid regex pattern '" +:+ MappingProxy.From startup_test.bad_pattern +:+ "': "
         +:+ "error parsing regexp: missing closing ]: `[invalid(regex`").
Proof.
  apply (NewProxy_reports_first_invalid_pattern "https://default.com"
           [main_test.item] [main_test.api_users] startup_test.bad_pattern false
           "error parsing regexp: missing closing ]: `[invalid(regex`").
  - intros m' Hin.
    apply elem_of_cons in Hin as [-> | Hin]; [vm_compute; reflexivity |].
    apply elem_of_nil in Hin. destruct Hin.
  - vm_compute. reflexivity.
Defined.

(** X4, at [TestBuildTargetURL_WithMapping], against a default host that
    does not parse. *)
Lemma buildTargetURL_mapping_before_default_host_witness :
  let p := main_test.proxy_with "https://default.com" [main_test.item] in
  let p' := main_test.proxy_with "://bad" [main_test.item] in
  let r := main_test.request "GET" "http://localhost/test/123" None in
  MappingProxy.buildTargetURL p r = MappingProxy.buildTargetURL p' r
  ∧ is_Ok (MappingProxy.buildTargetURL p r) = true.
Proof.
  apply (buildTargetURL_mapping_before_default_host
           (main_test.proxy_with "https://default.com" [main_test.item])
           (main_test.proxy_with "://bad" [main_test.item])
           (main_test.request "GET" "http://localhost/test/123" None)).
  - vm_compute. reflexivity.
  - exists (main_test.compiled main_test.item). split; [| vm_compute; reflexivity].
    assert (MappingProxy.compiledMappings
              (main_test.proxy_with "https://default.com" [main_test.item])
            = [main_test.compiled main_test.item]) as Hc by (vm_compute; reflexivity).
    rewrite Hc. left.
Defined.

(** X5, for a request that the one mapping does not match. *)
Lemma invalid_default_host_bad_gateway_witness :
  let p := main_test.proxy_with "://bad" [main_test.item] in
  let r := main_test.request "GET" "http://localhost/other" None in
  let n := main_test.online [("localhost", main_test.response 200 ∅ "ok")] in
  MappingProxy.buildTargetURL p r
  = Err ("invalid default host: " +:+ "parse ://bad: missing protocol scheme")
  ∧ ∃ w', MappingProxy.ServeHTTP p http.NewRecorder r n = (w', n)
      ∧ http.wCode w' = Some http.StatusBadGateway.
Proof.
  apply (invalid_default_host_bad_gateway
           (main_test.proxy_with "://bad" [main_test.item]) http.NewRecorder
           (main_test.request "GET" "http://localhost/other" None)
           (main_test.online [("localhost", main_test.response 200 ∅ "ok")])
           "parse ://bad: missing protocol scheme").
  - intros m Hin.
    assert (MappingProxy.compiledMappings (main_test.proxy_with "://bad" [main_test.item])
            = [main_test.compiled main_test.item]) as Hc by (vm_compute; reflexivity).
    rewrite Hc in Hin.
    apply elem_of_cons in Hin as [-> | Hin]; [vm_compute; reflexivity |].
    apply elem_of_nil in Hin. destruct Hin.
  - intros Heq. vm_compute in Heq. discriminate Heq.
  - vm_compute. reflexivity.
  - reflexivity.
Defined.

(** X6: a method that [http.NewRequest] rejects, and a host that cannot
    be reached. *)
Lemma ServeHTTP_failure_statuses_witness :
  let p := main_test.proxy_with "https://default.com" [] in
  let n := main_test.online [] in
  (∃ w', MappingProxy.ServeHTTP p http.NewRecorder
           (main_test.request "BAD METHOD" "http://localhost/x" None) n = (w', n)
     ∧ http.wCode w' = Some http.StatusInternalServerError)
  ∧ (∃ w' n', MappingProxy.ServeHTTP p http.NewRecorder
                (main_test.request "GET" "http://localhost/x" None) n = (w', n')
       ∧ length (sent n') = 1
       ∧ http.wCode w' = Some http.StatusBadGateway).
Proof.
  split.
  - assert (MappingProxy.buildTargetURL (main_test.proxy_with "https://default.com" [])
              (main_test.request "BAD METHOD" "http://localhost/x" None)
            = Ok "https://default.com/x") as Hbuild by (vm_compute; reflexivity).
    apply (proj1 (ServeHTTP_failure_statuses
                    (main_test.proxy_with "https://default.com" []) http.NewRecorder
                    (main_test.request "BAD METHOD" "http://localhost/x" None)
                    (main_test.online []) "https://default.com/x" eq_refl Hbuild)
             "net/http: invalid method BAD METHOD").
    vm_compute. reflexivity.
  - assert (MappingProxy.buildTargetURL (main_test.proxy_with "https://default.com" [])
              (main_test.request "GET" "http://localhost/x" None)
            = Ok "https://default.com/x") as Hbuild by (vm_compute; reflexivity).
    destruct (proj2 (ServeHTTP_failure_statuses
                       (main_test.proxy_with "https://default.com" []) http.NewRecorder
                       (main_test.request "GET" "http://localhost/x" None)
                       (main_test.online []) "https://default.com/x" eq_refl Hbuild)
                (or_default failover_test.upload
                   (NewRequest "GET" "https://default.com/x" None))
                "dial tcp: no such host" [])
      as (w' & Hserve & Hcode); [vm_compute; reflexivity | vm_compute; reflexivity |].
    exists w'. eexists. split; [exact Hserve |]. split; [reflexivity | exact Hcode].
Defined.

(** X7, at an upstream that answers 404. *)
Lemma ServeHTTP_relays_any_status_witness :
  let p := main_test.proxy_with "https://default.com" [] in
  let r := main_test.request "GET" "http://localhost/missing" None in
  let n := main_test.online [("default.com", failover_test.not_found "default")] in
  let proxyReq := or_default r (NewRequest "GET" "https://default.com/missing" None) in
  ∃ w', MappingProxy.ServeHTTP p http.NewRecorder r n
        = (w', mkNet (world n) (sent n ++ [forward_headers r proxyReq]))
    ∧ http.wCode w' = Some (http.StatusCode (failover_test.not_found "default"))
    ∧ http.wBody w'
      = http.wBody http.NewRecorder +:+ http.RespBody (failover_test.not_found "default").
Proof.
  apply (ServeHTTP_relays_any_status
           (main_test.proxy_with "https://default.com" []) http.NewRecorder
           (main_test.request "GET" "http://localhost/missing" None)
           (main_test.online [("default.com", failover_test.not_found "default")])
           "https://default.com/missing"
           (or_default (main_test.request "GET" "http://localhost/missing" None)
              (NewRequest "GET" "https://default.com/missing" None))
           (failover_test.not_found "default")
           [("default.com", failover_test.not_found "default")]).
  - reflexivity.
  - reflexivity.
  - vm_compute. lia.
  - vm_compute. reflexivity.
  - vm_compute. reflexivity.
  - vm_compute. reflexivity.
Defined.

(** X8, for the upload of the failover tests. *)
Lemma mapping_outbound_headers_exact_witness :
  ∃ new, sent (snd (MappingProxy.ServeHTTP (main_test.proxy_with "https://primary.com" [])
                      http.NewRecorder failover_test.upload failover_test.net))
         = sent failover_test.net ++ new
    ∧ length new ≤ 1
    ∧ Forall (fun req => http.ReqHeader req = forwarded failover_test.upload) new.
Proof.
  apply (mapping_outbound_headers_exact (main_test.proxy_with "https://primary.com" [])
           http.NewRecorder failover_test.upload failover_test.net).
  apply (canonical_header_singleton "User-Agent" ["test-agent"]).
  - vm_compute. reflexivity.
  - discriminate.
Defined.

(** X9, on the network of the failover tests. *)
Lemma mirror_outbound_headers_exact_witness :
  ∃ new, sent (snd (MirrorProxy.ServeHTTP failover_test.proxy http.NewRecorder
                      failover_test.upload failover_test.net))
         = sent failover_test.net ++ new
    ∧ Forall (fun req => http.ReqHeader req = forwarded failover_test.upload) new.
Proof.
  apply (mirror_outbound_headers_exact failover_test.proxy http.NewRecorder
           failover_test.upload failover_test.net).
  apply (canonical_header_singleton "User-Agent" ["test-agent"]).
  - vm_compute. reflexivity.
  - discriminate.
Defined.

(** X10, for the 404 of the primary. *)
Lemma response_headers_exact_witness :
  http.wHeader (fst (MappingProxy.ServeHTTP (main_test.proxy_with "https://primary.com" [])
                       http.NewRecorder failover_test.upload failover_test.net))
  = http.RespHeader (failover_test.not_found "primary").
Proof.
  apply (response_headers_exact (main_test.proxy_with "https://primary.com" [])
           http.NewRecorder failover_test.upload failover_test.net
           "https://primary.com/file.txt"
           (or_default failover_test.upload
              (NewRequest "POST" "https://primary.com/file.txt" (Some "payload")))
           (failover_test.not_found "primary") (world failover_test.net)).
  - reflexivity.
  - apply (canonical_header_singleton "X-Served-By" ["primary"]).
    + vm_compute. reflexivity.
    + discriminate.
  - vm_compute. reflexivity.
  - vm_compute. reflexivity.
  - vm_compute. reflexivity.
Defined.

(** X11, with a primary that has the file. *)
Lemma mirror_relays_primary_whole_witness :
  let p := failover_test.proxy in
  let r := failover_test.upload in
  let n := main_test.online [("primary.com", failover_test.found "primary")] in
  let n1 := snd (MirrorProxy.tryRequest p (MirrorProxy.target_of r) r n) in
  ∃ w', MirrorProxy.ServeHTTP p http.NewRecorder r n = (w', n1)
    ∧ sent n1 = sent n ++ MirrorProxy.requests_to r [MirrorProxy.target_of r]
    ∧ http.wCode w' = Some (http.StatusCode (failover_test.found "primary"))
    ∧ http.wBody w'
      = http.wBody http.NewRecorder +:+ http.RespBody (failover_test.found "primary").
Proof.
  apply (mirror_relays_primary_whole failover_test.proxy http.NewRecorder
           failover_test.upload
           (main_test.online [("primary.com", failover_test.found "primary")])
           (snd (MirrorProxy.tryRequest failover_test.proxy
                   (MirrorProxy.target_of failover_test.upload) failover_test.upload
                   (main_test.online [("primary.com", failover_test.found "primary")])))
           (failover_test.found "primary")).
  - reflexivity.
  - reflexivity.
  - vm_compute. lia.
  - vm_compute. reflexivity.
  - left. intros Heq. vm_compute in Heq. discriminate Heq.
Defined.

(** X12, with nobody on the network. *)
Lemma mirror_primary_error_no_failover_witness :
  let p := failover_test.proxy in
  let r := failover_test.upload in
  let n := main_test.online [] in
  let n1 := snd (MirrorProxy.tryRequest p (MirrorProxy.target_of r) r n) in
  ∃ w', MirrorProxy.ServeHTTP p http.NewRecorder r n = (w', n1)
    ∧ sent n1 = sent n ++ MirrorProxy.requests_to r [MirrorProxy.target_of r]
    ∧ http.wCode w' = Some http.StatusBadGateway.
Proof.
  apply (mirror_primary_error_no_failover failover_test.proxy http.NewRecorder
           failover_test.upload (main_test.online [])
           (snd (MirrorProxy.tryRequest failover_test.proxy
                   (MirrorProxy.target_of failover_test.upload) failover_test.upload
                   (main_test.online [])))
           "dial tcp: no such host").
  - reflexivity.
  - vm_compute. reflexivity.
Defined.

(** X14, for a GET on the network of the failover tests. *)
Lemma mirror_without_mirrors_is_plain_witness :
  let r := main_test.request "GET" "http://primary.com/file.txt" None in
  MirrorProxy.ServeHTTP (MirrorProxy.NewProxy []) http.NewRecorder r failover_test.net
  = PlainProxy.ServeHTTP PlainProxy.NewProxy http.NewRecorder r failover_test.net.
Proof.
  apply (mirror_without_mirrors_is_plain http.NewRecorder
           (main_test.request "GET" "http://primary.com/file.txt" None) failover_test.net).
  - reflexivity.
  - vm_compute. reflexivity.
Defined.

(** X15, for the upload of the failover tests. *)
Lemma plain_forwards_method_and_body_witness :
  let p := PlainProxy.NewProxy in
  let r := failover_test.upload in
  let n := failover_test.net in
  (is_Ok (NewRequest (http.Method r) (MirrorProxy.target_of r) (http.ReqBody r)) = false
   ∧ snd (PlainProxy.ServeHTTP p http.NewRecorder r n) = n
   ∧ http.wCode (fst (PlainProxy.ServeHTTP p http.NewRecorder r n))
     = Some http.StatusInternalServerError)
  ∨ (∃ req, sent (snd (PlainProxy.ServeHTTP p http.NewRecorder r n)) = sent n ++ [req]
       ∧ http.Method req = method_sent r
       ∧ http.ReqBody req = http.ReqBody r
       ∧ carries_headers r req).
Proof.
  apply (plain_forwards_method_and_body PlainProxy.NewProxy http.NewRecorder
           failover_test.upload failover_test.net).
  reflexivity.
Defined.

(** X16, at the second case of [TestReplaceHost], with a mirror that has
    a path and a query of its own. *)
Lemma replaceHost_swaps_scheme_and_host_witness :
  let u := url.mkURL "http" "" "example.com" "/path" false false "query=value" in
  let m := url.mkURL "https" "" "mirror.com" "/ignored" false false "x=1" in
  MirrorProxy.replaceHost (MirrorProxy.NewProxy []) "http://example.com/path?query=value"
    "https://mirror.com/ignored?x=1"
  = Ok (url.Scheme m +:+ "://" +:+ url.Host m +:+ url.Path u
        +:+ (if url.ForceQuery u || negb (bool_decide (url.RawQuery u = ""))
             then "?" +:+ url.RawQuery u else "")).
Proof.
  apply (replaceHost_swaps_scheme_and_host (MirrorProxy.NewProxy [])
           "http://example.com/path?query=value" "https://mirror.com/ignored?x=1"
           (url.mkURL "http" "" "example.com" "/path" false false "query=value")
           (url.mkURL "https" "" "mirror.com" "/ignored" false false "x=1")).
  - vm_compute. reflexivity.
  - vm_compute. reflexivity.
  - discriminate.
  - discriminate.
  - discriminate.
Defined.

(** X17, with a file that is not YAML. *)
Lemma main_serves_without_config_witness :
  let flags := MappingProxy.mkFlags "broken.yaml" "" "" false in
  ∃ proxy,
    MappingProxy.main ["tcz-proxy"] flags startup_test.no_env
    = MappingProxy.Serving (":" +:+ listen_port flags startup_test.no_env) proxy
    ∧ MappingProxy.compiledMappings proxy = []
    ∧ MappingProxy.defaultHost proxy = MappingProxy.hostOverride flags
    ∧ (MappingProxy.hostOverride flags = "" →
       ∀ (w : http.ResponseWriter) (r : http.Request)
         (n : Net (World := list (string * http.Response))),
         http.wCode w = None →
         ∃ w', MappingProxy.ServeHTTP proxy w r n = (w', n)
           ∧ http.wCode w' = Some http.StatusBadGateway).
Proof.
  apply (main_serves_without_config (Regexp := regexp.Regexp) ["tcz-proxy"]
           (MappingProxy.mkFlags "broken.yaml" "" "" false) startup_test.no_env
           "failed to parse config file: yaml: did not find expected node content").
  - discriminate.
  - vm_compute. reflexivity.
Defined.

(** X18, with the file whose second pattern does not compile. *)
Lemma main_fatal_on_invalid_pattern_witness :
  MappingProxy.main ["tcz-proxy"] (MappingProxy.mkFlags "badregex.yaml" "" "" false)
    startup_test.no_env
  = MappingProxy.Fatal
      ("Failed to create proxy: invalid regex pattern '"
       +:+ MappingProxy.From startup_test.bad_pattern +:+ "': "
       +:+ "error parsing regexp: missing closing ]: `[invalid(regex`").
Proof.
  apply (main_fatal_on_invalid_pattern ["tcz-proxy"]
           (MappingProxy.mkFlags "badregex.yaml" "" "" false) startup_test.no_env
           startup_test.badregex_config [main_test.item] [] startup_test.bad_pattern
           "error parsing regexp: missing closing ]: `[invalid(regex`").
  - discriminate.
  - vm_compute. reflexivity.
  - reflexivity.
  - intros m' Hin.
    apply elem_of_cons in Hin as [-> | Hin]; [vm_compute; reflexivity |].
    apply elem_of_nil in Hin. destruct Hin.
  - vm_compute. reflexivity.
Defined.

(** X19, with the configuration of the README, a port and a host on the
    command line, and [PORT] and [FOLLOW_REDIRECTS] in the environment. *)
Lemma main_serves_loaded_config_witness :
  let flags := MappingProxy.mkFlags "config.yaml" "9000" "https://override.example.com" false in
  let Getenv := startup_test.env "FOLLOW_REDIRECTS" "true"
                  (startup_test.env "PORT" "7000" startup_test.no_env) in
  let config := startup_test.readme_config in
  ∃ proxy,
    MappingProxy.main ["tcz-proxy"; "-port"; "9000"] flags Getenv
    = MappingProxy.Serving (":" +:+ listen_port flags Getenv) proxy
    ∧ MappingProxy.defaultHost proxy
      = (if bool_decide (MappingProxy.hostOverride flags = "")
         then MappingProxy.DefaultHost config else MappingProxy.hostOverride flags)
    ∧ MappingProxy.followRedirects proxy
      = MappingProxy.followRedirectsFlag flags
        || bool_decide (Getenv "FOLLOW_REDIRECTS" = "true")
        || MappingProxy.FollowRedirects config
    ∧ MappingProxy.to <$> MappingProxy.compiledMappings proxy
      = MappingProxy.To <$> MappingProxy.PathMappings config
    ∧ (http.CheckRedirect (MappingProxy.client proxy) = Some http.UseLastResponse
       ↔ MappingProxy.followRedirects proxy = false).
Proof.
  apply (main_serves_loaded_config (Regexp := regexp.Regexp)
           ["tcz-proxy"; "-port"; "9000"]
           (MappingProxy.mkFlags "config.yaml" "9000" "https://override.example.com" false)
           (startup_test.env "FOLLOW_REDIRECTS" "true"
              (startup_test.env "PORT" "7000" startup_test.no_env))
           startup_test.readme_config).
  - discriminate.
  - vm_compute. reflexivity.
  - intros m Hin. unfold startup_test.readme_config in Hin.
    cbn [MappingProxy.PathMappings] in Hin.
    apply elem_of_cons in Hin as [-> | Hin]; [vm_compute; reflexivity |].
    apply elem_of_cons in Hin as [-> | Hin]; [vm_compute; reflexivity |].
    apply elem_of_nil in Hin. destruct Hin.
Defined.

(** X20, with [-config badregex.yaml] and [CONFIG_FILE=config.yaml]. *)
Lemma CONFIG_FILE_yields_to_the_flag_witness :
  let flags := MappingProxy.mkFlags "badregex.yaml" "" "" false in
  MappingProxy.main (Regexp := regexp.Regexp) ["tcz-proxy"] flags
    (startup_test.env "CONFIG_FILE" "config.yaml" startup_test.no_env)
  = MappingProxy.main ["tcz-proxy"] flags startup_test.no_env.
Proof.
  apply (CONFIG_FILE_yields_to_the_flag ["tcz-proxy"]
           (MappingProxy.mkFlags "badregex.yaml" "" "" false) startup_test.no_env
           (startup_test.env "CONFIG_FILE" "config.yaml" startup_test.no_env)).
  - discriminate.
  - intros key Hkey. unfold startup_test.env.
    rewrite (bool_decide_false (key = "CONFIG_FILE")) by exact Hkey. reflexivity.
Defined.
